(** * Time_change_listener: supervision of the time-change child process

    Shallow embedding of
    [auto-dark-light@gihaume/lib/time_change_listener/time_change_listener.js].

    The class talks to the outside through GLib/Gio only.  Those calls are
    modelled by a small world (a table of launched processes) and an
    environment record that answers what the operating system decides
    (which programs are on the search path, how the build ends, whether the
    child honours [exit]).  The two [async] methods are split at their
    single [await]: the part that issues the read, and the continuation that
    the main loop runs when the read completes.

    Conventions of the model:
    - the callbacks of the owner are functions on the owner's state; they
      return normally and do not call back into the listener;
    - a read completion and the continuation it resumes form one turn of
      the main loop: nothing else runs in between;
    - a line read on a stream is the text that a template literal renders
      for it, and its length is the length of that text;
    - a write on the standard input of a process that has exited fails with
      a broken pipe;
    - a write on the standard input of a running process completes: the
      commands are a few bytes and the pipe is taken never to be full. *)

From Stdlib Require Import String Ascii List Bool Arith Lia.
Import ListNotations.
Local Open Scope list_scope.
Local Open Scope string_scope.

(** ** JavaScript values *)

(** The two kinds of exception objects the file meets: [new Error(m)] built
    by the class itself and [GLib.Error] raised by a Gio call. *)
Inductive exn : Type :=
| JS_Error (msg : string)
| GLib_Error (msg : string).

(** [error.message] *)
Definition message (e : exn) : string :=
  match e with
  | JS_Error m => m
  | GLib_Error m => m
  end.

(** What [callback_for_errors] is handed: a string, or an exception object. *)
Inductive js_value : Type :=
| JS_string (s : string)
| JS_exn (e : exn).

(** The line feed character of the template literals and of the commands. *)
Definition LF : string := String (ascii_of_nat 10) EmptyString.

(** Truthiness of what [GLib.find_program_in_path] returns: [null] and the
    empty string are falsy. *)
Definition truthy (v : option string) : bool :=
  match v with
  | None => false
  | Some s => negb (String.eqb s EmptyString)
  end.

(** [a && b] on such values: [a] when it is falsy, [b] otherwise. *)
Definition js_and (a b : option string) : option string :=
  if truthy a then b else a.

(** ** Computations: state, exceptions, and calls that never return *)

Module JS.

Inductive outcome (A : Type) : Type :=
| Returns (a : A)
| Throws (e : exn)
| Blocks.
Arguments Returns {A} a.
Arguments Throws {A} e.
Arguments Blocks {A}.

Definition M (S A : Type) : Type := S -> outcome A * S.

Definition ret {S A} (a : A) : M S A := fun s => (Returns a, s).

Definition bind {S A B} (c : M S A) (k : A -> M S B) : M S B :=
  fun s =>
    match c s with
    | (Returns a, s') => k a s'
    | (Throws e, s') => (Throws e, s')
    | (Blocks, s') => (Blocks, s')
    end.

Definition throw {S A} (e : exn) : M S A := fun s => (Throws e, s).

(** [try { c } catch (error) { handler error }] *)
Definition try_catch {S A} (c : M S A) (handler : exn -> M S A) : M S A :=
  fun s =>
    match c s with
    | (Throws e, s') => handler e s'
    | r => r
    end.

Definition gets {S A} (f : S -> A) : M S A := fun s => (Returns (f s), s).

Definition modify {S} (f : S -> S) : M S unit := fun s => (Returns tt, f s).

(** Run a computation on a component of the state. *)
Definition zoom {S T A} (proj : S -> T) (inj : T -> S -> S) (c : M T A)
  : M S A :=
  fun s => let (r, t') := c (proj s) in (r, inj t' s).

End JS.
Import JS.

Declare Scope js_scope.
Delimit Scope js_scope with js.
Notation "x <- c ;; k" := (bind c (fun x => k))
  (at level 61, c at next level, right associativity) : js_scope.
Notation "c ;; k" := (bind c (fun _ => k))
  (at level 61, right associativity) : js_scope.
Local Open Scope js_scope.

(** ** The world: processes launched through [Gio.Subprocess] *)

Inductive SubprocessFlags : Type := STDIN_PIPE | STDOUT_PIPE | STDERR_PIPE.

Inductive process_status : Type := Running | Exited.

Record process : Type := {
  argv : list string;
  flags : list SubprocessFlags;
  status : process_status;
  (** what the parent wrote on the process's standard input, oldest first *)
  stdin : list string
}.

(** A [Gio.Subprocess] object is its index in the table of processes. *)
Definition Subprocess : Type := nat.

Record World : Type := { processes : list process }.

Inductive OutputStream : Type := Stdin_pipe (p : Subprocess).
Inductive InputStream : Type :=
| Stdout_pipe (p : Subprocess)
| Stderr_pipe (p : Subprocess).
Inductive DataInputStream : Type := Data_input_stream (base_stream : InputStream).

(** What the operating system answers. *)
Record Env : Type := {
  (** [GLib.find_program_in_path]: the path found, or [null] *)
  find_program_in_path : string -> option string;
  (** launching [argv]: [None] when it starts, [Some m] when [init] raises *)
  launch_error : list string -> option string;
  (** [communicate_utf8] on a finished [argv]: the captured error text, or
      the message of the [GLib.Error] it raises *)
  communicate_result : list string -> string + string;
  (** [get_successful]: did [argv] exit normally with status 0 *)
  exit_success : list string -> bool;
  (** does the program started as [argv] exit when it reads [exit] *)
  exits_on_exit_command : list string -> bool
}.

Definition set_status (s : process_status) (p : process) : process :=
  {| argv := argv p; flags := flags p; status := s; stdin := stdin p |}.

Definition push_stdin (bytes : string) (p : process) : process :=
  {| argv := argv p; flags := flags p; status := status p;
     stdin := (stdin p ++ [bytes])%list |}.

Fixpoint update_process (pid : nat) (f : process -> process)
  (ps : list process) : list process :=
  match ps, pid with
  | [], _ => []
  | p :: ps', 0 => f p :: ps'
  | p :: ps', S n => p :: update_process n f ps'
  end.

Definition lookup_process (w : World) (pid : Subprocess) : option process :=
  nth_error (processes w) pid.

Definition update_world (pid : Subprocess) (f : process -> process) (w : World)
  : World :=
  {| processes := update_process pid f (processes w) |}.

Definition broken_pipe : exn := GLib_Error "Broken pipe".

Section Gio.

Variable env : Env.

(** [new Gio.Subprocess({argv, flags})] followed by [init(null)]: the
    program is launched, or [init] raises and nothing is launched. *)
Definition Subprocess_new_init (args : list string)
  (fl : list SubprocessFlags) : M World Subprocess :=
  fun w =>
    match launch_error env args with
    | Some m => (Throws (GLib_Error m), w)
    | None =>
        (Returns (length (processes w)),
         {| processes := (processes w ++
              [{| argv := args; flags := fl; status := Running;
                  stdin := [] |}])%list |})
    end.

(** [communicate_utf8(null, null)]: waits for the process to end and
    returns its captured error text. *)
Definition communicate_utf8 (p : Subprocess) : M World string :=
  fun w =>
    match lookup_process w p with
    | None => (Throws (GLib_Error "no such process"), w)
    | Some pr =>
        let w' := update_world p (set_status Exited) w in
        match communicate_result env (argv pr) with
        | inl stderr => (Returns stderr, w')
        | inr m => (Throws (GLib_Error m), w')
        end
    end.

Definition get_successful (p : Subprocess) : M World bool :=
  fun w =>
    match lookup_process w p with
    | None => (Returns false, w)
    | Some pr => (Returns (exit_success env (argv pr)), w)
    end.

(** [stream.write(bytes, null)] on a process's standard input: the bytes
    reach the process while it runs; once it has exited the pipe is
    broken and the call raises. *)
Definition OutputStream_write (o : OutputStream) (bytes : string)
  : M World unit :=
  fun w =>
    let 'Stdin_pipe p := o in
    match lookup_process w p with
    | Some pr =>
        match status pr with
        | Running => (Returns tt, update_world p (push_stdin bytes) w)
        | Exited => (Throws broken_pipe, w)
        end
    | None => (Throws broken_pipe, w)
    end.

(** Has the process been sent the [exit] command. *)
Definition told_to_exit (pr : process) : bool :=
  existsb (String.eqb ("exit" ++ LF)) (stdin pr).

(** [subprocess.wait(null)]: returns once the process has exited.  A
    running process exits when it was sent [exit] and honours it;
    otherwise the call never returns. *)
Definition Subprocess_wait (p : Subprocess) : M World unit :=
  fun w =>
    match lookup_process w p with
    | None => (Returns tt, w)
    | Some pr =>
        match status pr with
        | Exited => (Returns tt, w)
        | Running =>
            if exits_on_exit_command env (argv pr) && told_to_exit pr
            then (Returns tt, update_world p (set_status Exited) w)
            else (Blocks, w)
        end
    end.

End Gio.

(** ** The class *)

Definition EXECUTABLE_NAME : string := "auto-dark-light-time-change-listener".

(** Where an [async] method stands: suspended at its [await] with a read
    pending on its stream, or run to completion. *)
Inductive task : Type := Awaiting_line | Finished.

(** What a pending [read_line_async] completes with. *)
Inductive read_result : Type :=
| Line (text : string)
| End_of_stream
| Read_failed (msg : string).

(** [source.read_line_finish(result)]: the pair [[line, length]], [[null, 0]]
    at the end of the stream, or a raised [GLib.Error]. *)
Definition read_line_finish {S} (r : read_result) : M S (option string * nat) :=
  match r with
  | Line text => ret (Some text, String.length text)
  | End_of_stream => ret (None, 0)
  | Read_failed m => throw (GLib_Error m)
  end.

Section Listener.

(** The owner of the listener: its state is whatever its two callbacks
    act on. *)
Context {Owner : Type}.

Record Time_change_listener : Type := {
  callback_when_change : Owner -> Owner;
  callback_for_errors : js_value -> Owner -> Owner;
  subprocess : Subprocess;
  input : DataInputStream;
  input_error : DataInputStream;
  output : OutputStream;
  end_listen : bool;
  (** the two calls started by the constructor *)
  listen_input_task : task;
  listen_error_task : task
}.

Record Machine : Type := {
  this : Time_change_listener;
  world : World;
  owner : Owner
}.

Definition set_this (f : Time_change_listener -> Time_change_listener)
  : M Machine unit :=
  modify (fun m => {| this := f (this m); world := world m; owner := owner m |}).

Definition in_world {A} (c : M World A) : M Machine A :=
  zoom world (fun w m => {| this := this m; world := w; owner := owner m |}) c.

Definition call_owner (f : Owner -> Owner) : M Machine unit :=
  modify (fun m => {| this := this m; world := world m; owner := f (owner m) |}).

Definition set_callback_when_change (f : Owner -> Owner)
  (l : Time_change_listener) : Time_change_listener :=
  {| callback_when_change := f;
     callback_for_errors := callback_for_errors l;
     subprocess := subprocess l; input := input l;
     input_error := input_error l; output := output l;
     end_listen := end_listen l;
     listen_input_task := listen_input_task l;
     listen_error_task := listen_error_task l |}.

Definition set_end_listen (b : bool) (l : Time_change_listener)
  : Time_change_listener :=
  {| callback_when_change := callback_when_change l;
     callback_for_errors := callback_for_errors l;
     subprocess := subprocess l; input := input l;
     input_error := input_error l; output := output l;
     end_listen := b;
     listen_input_task := listen_input_task l;
     listen_error_task := listen_error_task l |}.

Definition set_listen_input_task (t : task) (l : Time_change_listener)
  : Time_change_listener :=
  {| callback_when_change := callback_when_change l;
     callback_for_errors := callback_for_errors l;
     subprocess := subprocess l; input := input l;
     input_error := input_error l; output := output l;
     end_listen := end_listen l;
     listen_input_task := t;
     listen_error_task := listen_error_task l |}.

Definition set_listen_error_task (t : task) (l : Time_change_listener)
  : Time_change_listener :=
  {| callback_when_change := callback_when_change l;
     callback_for_errors := callback_for_errors l;
     subprocess := subprocess l; input := input l;
     input_error := input_error l; output := output l;
     end_listen := end_listen l;
     listen_input_task := listen_input_task l;
     listen_error_task := t |}.

(** The translation function [_] of [lib/translator.js]. *)
Variable gettext : string -> string.
Variable env : Env.

Definition missing_dependencies_message : string :=
  gettext "Missing dependencies `make` and `gcc`. Install them, in e.g. on Debian-based system with `sudo apt install build-essential`, then reload the applet (in e.g. in restarting Cinnamon).".

Definition compilation_failed_message (detail : string) : string :=
  gettext "Compilation of" ++ " `" ++ EXECUTABLE_NAME ++ "` "
    ++ gettext "failed" ++ "." ++ LF ++ LF ++ detail.

Definition error_output_message (line : string) : string :=
  gettext "the subprocess" ++ " `" ++ EXECUTABLE_NAME ++ "` "
    ++ gettext "wrote on its error output" ++ gettext ":" ++ " " ++ line.

(** [constructor(path, callback_when_change, callback_for_errors)].  The
    object is returned with both [async] calls suspended at their first
    [await]. *)
Definition constructor (path : string)
  (callback_when_change : Owner -> Owner)
  (callback_for_errors : js_value -> Owner -> Owner)
  : M World Time_change_listener :=
  if negb (truthy (js_and (find_program_in_path env "make")
                          (find_program_in_path env "gcc")))
  then throw (JS_Error missing_dependencies_message)
  else
    compilation <- Subprocess_new_init env ["make"; "-C"; path] [STDERR_PIPE] ;;
    try_catch
      (stderr <- communicate_utf8 env compilation ;;
       successful <- get_successful env compilation ;;
       if negb successful then throw (JS_Error stderr) else ret tt)
      (fun error =>
         throw (JS_Error (compilation_failed_message (message error)))) ;;
    let executable_path := path ++ "/" ++ EXECUTABLE_NAME in
    subprocess <- Subprocess_new_init env [executable_path]
                    [STDOUT_PIPE; STDIN_PIPE; STDERR_PIPE] ;;
    ret {| callback_when_change := callback_when_change;
           callback_for_errors := callback_for_errors;
           subprocess := subprocess;
           output := Stdin_pipe subprocess;
           input := Data_input_stream (Stdout_pipe subprocess);
           input_error := Data_input_stream (Stderr_pipe subprocess);
           end_listen := false;
           listen_input_task := Awaiting_line;
           listen_error_task := Awaiting_line |}.

(** [#listen_input], after its [await]: the completed read is not looked
    at; the change callback is called and the loop test is made. *)
Definition listen_input_resume (r : read_result) : M Machine unit :=
  f <- gets (fun m => callback_when_change (this m)) ;;
  call_owner f ;;
  stop <- gets (fun m => end_listen (this m)) ;;
  if negb stop
  then set_this (set_listen_input_task Awaiting_line)
  else set_this (set_listen_input_task Finished).

(** [#listen_error], after its [await]. *)
Definition listen_error_resume (r : read_result) : M Machine unit :=
  pair <- try_catch (read_line_finish r)
            (fun error =>
               f <- gets (fun m => callback_for_errors (this m)) ;;
               call_owner (f (JS_exn error)) ;;
               ret (None, 0)) ;;
  let '(line, length) := pair in
  match line with
  | Some text =>
      if Nat.ltb 0 length
      then f <- gets (fun m => callback_for_errors (this m)) ;;
           call_owner (f (JS_string (error_output_message text)))
      else ret tt
  | None => ret tt
  end ;;
  stop <- gets (fun m => end_listen (this m)) ;;
  if negb stop
  then set_this (set_listen_error_task Awaiting_line)
  else set_this (set_listen_error_task Finished).

Definition enable : M Machine unit :=
  o <- gets (fun m => output (this m)) ;;
  in_world (OutputStream_write o ("enable" ++ LF)).

Definition disable : M Machine unit :=
  o <- gets (fun m => output (this m)) ;;
  in_world (OutputStream_write o ("disable" ++ LF)).

Definition finalize : M Machine unit :=
  set_this (set_callback_when_change (fun o => o)) ;;
  set_this (set_end_listen true) ;;
  o <- gets (fun m => output (this m)) ;;
  in_world (OutputStream_write o ("exit" ++ LF)) ;;
  p <- gets (fun m => subprocess (this m)) ;;
  in_world (Subprocess_wait env p).

(** ** The main loop *)

Inductive event : Type :=
| Stdout_read_completes (r : read_result)
| Stderr_read_completes (r : read_result)
| Owner_calls_enable
| Owner_calls_disable
| Owner_calls_finalize
| Child_exits.

(** One turn of the main loop.  A completion is delivered only to a call
    that is suspended on a read. *)
Definition dispatch (e : event) : M Machine unit :=
  match e with
  | Stdout_read_completes r =>
      t <- gets (fun m => listen_input_task (this m)) ;;
      match t with
      | Awaiting_line => listen_input_resume r
      | Finished => ret tt
      end
  | Stderr_read_completes r =>
      t <- gets (fun m => listen_error_task (this m)) ;;
      match t with
      | Awaiting_line => listen_error_resume r
      | Finished => ret tt
      end
  | Owner_calls_enable => enable
  | Owner_calls_disable => disable
  | Owner_calls_finalize => finalize
  | Child_exits =>
      p <- gets (fun m => subprocess (this m)) ;;
      in_world (modify (update_world p (set_status Exited)))
  end.

(** A run of the main loop.  An exception raised by a call of the owner
    goes back to the owner; a call that blocks forever ends the run. *)
Fixpoint run (evs : list event) (m : Machine) : Machine :=
  match evs with
  | [] => m
  | e :: evs' =>
      match dispatch e m with
      | (Blocks, m') => m'
      | (_, m') => run evs' m'
      end
  end.

End Listener.

Arguments Time_change_listener : clear implicits.
Arguments Machine : clear implicits.

(** ** An owner that records what it is told *)

Inductive notification : Type :=
| Changed
| Error_reported (v : js_value).

Definition Recorder : Type := list notification.

Definition record_change : Recorder -> Recorder :=
  fun log => (log ++ [Changed])%list.

Definition record_error : js_value -> Recorder -> Recorder :=
  fun v log => (log ++ [Error_reported v])%list.

Definition is_change (n : notification) : bool :=
  match n with Changed => true | Error_reported _ => false end.

(** How many times [onChange] was called. *)
Definition changes (log : Recorder) : nat := length (filter is_change log).

(** [s] contains [t] verbatim. *)
Definition contains (s t : string) : Prop :=
  exists before after, s = before ++ t ++ after.

Definition nonempty (s : string) : bool := negb (String.eqb s EmptyString).

(** ** Reading a run *)

Definition is_finalize (e : event) : bool :=
  match e with Owner_calls_finalize => true | _ => false end.

(** No call of [finalize] among the events. *)
Definition before_teardown (evs : list event) : bool :=
  forallb (fun e => negb (is_finalize e)) evs.

(** The lines read on the child's standard output. *)
Fixpoint stdout_lines (evs : list event) : list string :=
  match evs with
  | [] => []
  | Stdout_read_completes (Line text) :: evs' => text :: stdout_lines evs'
  | _ :: evs' => stdout_lines evs'
  end.

(** Every read completed on the standard output delivered a line. *)
Definition stdout_delivers_lines (evs : list event) : bool :=
  forallb (fun e => match e with
                    | Stdout_read_completes (Line _) => true
                    | Stdout_read_completes _ => false
                    | _ => true
                    end) evs.

(** The lines read on the child's standard error. *)
Fixpoint stderr_lines (evs : list event) : list string :=
  match evs with
  | [] => []
  | Stderr_read_completes (Line text) :: evs' => text :: stderr_lines evs'
  | _ :: evs' => stderr_lines evs'
  end.

(** Every read completed on the standard error delivered a line. *)
Definition stderr_delivers_lines (evs : list event) : bool :=
  forallb (fun e => match e with
                    | Stderr_read_completes (Line _) => true
                    | Stderr_read_completes _ => false
                    | _ => true
                    end) evs.

(** The error reports among what the owner was told. *)
Definition error_reports (log : Recorder) : Recorder :=
  filter (fun n => negb (is_change n)) log.

(** A listener as the constructor leaves it, owned by a recorder. *)
Definition listening (m : Machine Recorder) : Prop :=
  callback_when_change (this m) = record_change /\
  callback_for_errors (this m) = record_error /\
  end_listen (this m) = false /\
  listen_input_task (this m) = Awaiting_line /\
  listen_error_task (this m) = Awaiting_line.

(** The handles of a listener all name the process [p], which is in the
    table. *)
Definition wired {Owner} (m : Machine Owner) (p : Subprocess) (pr : process)
  : Prop :=
  subprocess (this m) = p /\
  output (this m) = Stdin_pipe p /\
  lookup_process (world m) p = Some pr.

(** ** Reading a step *)

(** The task after the loop test [while (!this.#end_listen)]. *)
Definition next_task (stop : bool) : task :=
  if stop then Finished else Awaiting_line.

(** What a completed read on the error stream makes the error callback
    do to the owner. *)
Definition error_effect {Owner : Type} (gettext : string -> string)
  (cb : js_value -> Owner -> Owner) (r : read_result) : Owner -> Owner :=
  match r with
  | Line text =>
      if nonempty text
      then cb (JS_string (error_output_message gettext text))
      else fun o => o
  | End_of_stream => fun o => o
  | Read_failed m => cb (JS_exn (GLib_Error m))
  end.

(** What one event makes a listening machine tell its owner. *)
Definition told (gettext : string -> string) (e : event) : Recorder :=
  match e with
  | Stdout_read_completes _ => [Changed]
  | Stderr_read_completes r => error_effect gettext record_error r []
  | _ => []
  end.

(** The listener after teardown has begun. *)
Definition stopped {Owner : Type} (m : Machine Owner) : Prop :=
  end_listen (this m) = true /\
  callback_when_change (this m) = (fun o => o).

(** ** Reading the construction *)

Definition make_argv (path : string) : list string := ["make"; "-C"; path].

Definition executable_argv (path : string) : list string :=
  [path ++ "/" ++ EXECUTABLE_NAME].

Definition tools_found (env : Env) : bool :=
  truthy (find_program_in_path env "make") &&
  truthy (find_program_in_path env "gcc").

(** The world once [make] has been launched and has ended. *)
Definition built_world (path : string) (w : World) : World :=
  update_world (length (processes w)) (set_status Exited)
    {| processes := (processes w ++
         [{| argv := make_argv path; flags := [STDERR_PIPE]; status := Running;
             stdin := [] |}])%list |}.

(** ** A concrete setting *)

Module Demo.

Definition gettext (s : string) : string := s.

Definition env : Env := {|
  find_program_in_path := fun name => Some ("/usr/bin/" ++ name);
  launch_error := fun _ => None;
  communicate_result := fun _ => inl EmptyString;
  exit_success := fun _ => true;
  exits_on_exit_command := fun _ => true
|}.

(** [make] is there, the compiler is not. *)
Definition env_without_gcc : Env := {|
  find_program_in_path :=
    fun name => if String.eqb name "gcc" then None
                else Some ("/usr/bin/" ++ name);
  launch_error := fun _ => None;
  communicate_result := fun _ => inl EmptyString;
  exit_success := fun _ => true;
  exits_on_exit_command := fun _ => true
|}.


Definition path : string := "/applet/lib".

Definition empty_world : World := {| processes := [] |}.

Definition child : process := {|
  argv := [path ++ "/" ++ EXECUTABLE_NAME];
  flags := [STDOUT_PIPE; STDIN_PIPE; STDERR_PIPE];
  status := Running;
  stdin := []
|}.

Definition listener : Time_change_listener Recorder := {|
  callback_when_change := record_change;
  callback_for_errors := record_error;
  subprocess := 1;
  input := Data_input_stream (Stdout_pipe 1);
  input_error := Data_input_stream (Stderr_pipe 1);
  output := Stdin_pipe 1;
  end_listen := false;
  listen_input_task := Awaiting_line;
  listen_error_task := Awaiting_line
|}.

Definition started_world : World := {|
  processes :=
    [ {| argv := ["make"; "-C"; path]; flags := [STDERR_PIPE];
         status := Exited; stdin := [] |};
      child ]
|}.

(** The machine right after a successful construction. *)
Definition machine : Machine Recorder :=
  {| this := listener; world := started_world; owner := [] |}.

End Demo.

(** ** Reading a run: commands and completions *)

(** The commands the owner's calls of [enable] and [disable] write. *)
Fixpoint commands (evs : list event) : list string :=
  match evs with
  | [] => []
  | Owner_calls_enable :: evs' => ("enable" ++ LF) :: commands evs'
  | Owner_calls_disable :: evs' => ("disable" ++ LF) :: commands evs'
  | _ :: evs' => commands evs'
  end.

(** Neither a call of [finalize] nor the exit of the child among the
    events. *)
Definition child_left_running (evs : list event) : bool :=
  forallb (fun e => match e with
                    | Owner_calls_finalize | Child_exits => false
                    | _ => true
                    end) evs.

(** How many reads completed on the child's standard output, whatever they
    delivered. *)
Fixpoint stdout_completions (evs : list event) : nat :=
  match evs with
  | [] => 0
  | Stdout_read_completes _ :: evs' => S (stdout_completions evs')
  | _ :: evs' => stdout_completions evs'
  end.

Definition task_done (t : task) : bool :=
  match t with Finished => true | Awaiting_line => false end.


(** The error reports still allowed to a machine after teardown: one while
    the error loop waits for its last completion, none once it has ended. *)
Definition reports_left {Owner : Type} (m : Machine Owner) : nat :=
  if task_done (listen_error_task (this m)) then 0 else 1.

(** Teardown has begun and both loops have ended. *)
Definition quiet {Owner : Type} (m : Machine Owner) : Prop :=
  stopped m /\
  listen_input_task (this m) = Finished /\
  listen_error_task (this m) = Finished.

(** ** Further concrete settings *)

Module Scenario.

(** [make] cannot be launched. *)
Definition env_make_not_launched : Env := {|
  find_program_in_path := fun name => Some ("/usr/bin/" ++ name);
  launch_error :=
    fun args => match args with
                | [_; _; _] => Some "Failed to execute child process"
                | _ => None
                end;
  communicate_result := fun _ => inl EmptyString;
  exit_success := fun _ => true;
  exits_on_exit_command := fun _ => true
|}.

(** Collecting the output of [make] raises. *)
Definition env_communicate_raises : Env := {|
  find_program_in_path := fun name => Some ("/usr/bin/" ++ name);
  launch_error := fun _ => None;
  communicate_result := fun _ => inr "Invalid byte sequence in conversion input";
  exit_success := fun _ => true;
  exits_on_exit_command := fun _ => true
|}.



End Scenario.

(** * Properties *)

(** ** Strings and the process table *)

Lemma append_assoc (a b c : string) : (a ++ b) ++ c = a ++ (b ++ c).
Proof.
  induction a as [|ch a IH]; simpl; [reflexivity | now rewrite IH].
Qed.

Lemma append_empty_r (a : string) : a ++ EmptyString = a.
Proof.
  induction a as [|ch a IH]; simpl; [reflexivity | now rewrite IH].
Qed.

Lemma contains_suffix (a t : string) : contains (a ++ t) t.
Proof.
  exists a, EmptyString. now rewrite append_empty_r.
Qed.

Lemma nonempty_length (s : string) :
  Nat.ltb 0 (String.length s) = nonempty s.
Proof. destruct s; reflexivity. Qed.

Lemma lookup_appended (ps : list process) (p : process) :
  nth_error (ps ++ [p]) (length ps) = Some p.
Proof.
  rewrite nth_error_app2 by lia. now rewrite Nat.sub_diag.
Qed.

Lemma lookup_update (f : process -> process) (ps : list process) (pid : nat) :
  nth_error (update_process pid f ps) pid = option_map f (nth_error ps pid).
Proof.
  revert pid; induction ps as [|p ps IH]; intros [|pid]; simpl; auto.
Qed.

Lemma update_keeps_argv (f : process -> process) (ps : list process) (pid : nat) :
  (forall p, argv (f p) = argv p) ->
  map argv (update_process pid f ps) = map argv ps.
Proof.
  intros Hf. revert pid; induction ps as [|p ps IH]; intros [|pid]; simpl;
    try reflexivity.
  - now rewrite Hf.
  - now rewrite IH.
Qed.

Lemma told_after_exit (pr : process) :
  told_to_exit (push_stdin ("exit" ++ LF) pr) = true.
Proof.
  unfold told_to_exit, push_stdin. cbn [stdin]. rewrite existsb_app.
  cbn [existsb]. rewrite String.eqb_refl. cbn. apply orb_true_r.
Qed.

(** ** One step of each loop *)

Section Steps.

Context {Owner : Type}.
Variable gettext : string -> string.
Variable env : Env.

Lemma listen_input_resume_step (r : read_result) (m : Machine Owner) :
  listen_input_resume r m =
  (Returns tt,
   {| this := set_listen_input_task (next_task (end_listen (this m))) (this m);
      world := world m;
      owner := callback_when_change (this m) (owner m) |}).
Proof.
  unfold listen_input_resume, bind, gets, call_owner, modify, set_this.
  cbn. destruct (end_listen (this m)); reflexivity.
Qed.

Lemma listen_error_resume_step (r : read_result) (m : Machine Owner) :
  listen_error_resume gettext r m =
  (Returns tt,
   {| this := set_listen_error_task (next_task (end_listen (this m))) (this m);
      world := world m;
      owner := error_effect gettext (callback_for_errors (this m)) r (owner m) |}).
Proof.
  unfold listen_error_resume, bind, gets, call_owner, modify, set_this,
    try_catch, read_line_finish, ret, throw, error_effect.
  destruct r as [text| |msg]; cbn -[Nat.ltb String.length error_output_message].
  - rewrite nonempty_length.
    destruct (nonempty text); cbn -[error_output_message];
      destruct (end_listen (this m)); destruct m; reflexivity.
  - destruct (end_listen (this m)); destruct m; reflexivity.
  - destruct (end_listen (this m)); reflexivity.
Qed.

Lemma write_running (m : Machine Owner) (p : Subprocess) (pr : process)
  (bytes : string) :
  lookup_process (world m) p = Some pr -> status pr = Running ->
  in_world (OutputStream_write (Stdin_pipe p) bytes) m =
  (Returns tt, {| this := this m;
                  world := update_world p (push_stdin bytes) (world m);
                  owner := owner m |}).
Proof.
  intros Hl Hs. unfold in_world, zoom, OutputStream_write.
  now rewrite Hl, Hs.
Qed.

Lemma write_exited (m : Machine Owner) (p : Subprocess) (pr : process)
  (bytes : string) :
  lookup_process (world m) p = Some pr -> status pr = Exited ->
  in_world (OutputStream_write (Stdin_pipe p) bytes) m = (Throws broken_pipe, m).
Proof.
  intros Hl Hs. unfold in_world, zoom, OutputStream_write.
  rewrite Hl, Hs. now destruct m.
Qed.

(** Whatever happens to the write and to the wait, [finalize] leaves the
    listener with the no-op change callback and the stop flag set, and
    leaves the owner alone. *)
Lemma finalize_this (m : Machine Owner) :
  this (snd (finalize env m)) =
  set_end_listen true (set_callback_when_change (fun o => o) (this m)).
Proof.
  unfold finalize, bind, gets, set_this, modify, in_world, zoom. cbn.
  destruct (OutputStream_write _ _ _) as [[u|e|] w1]; cbn; try reflexivity.
  destruct (Subprocess_wait _ _ _) as [[u'|e'|] w2]; reflexivity.
Qed.

Lemma finalize_owner (m : Machine Owner) :
  owner (snd (finalize env m)) = owner m.
Proof.
  unfold finalize, bind, gets, set_this, modify, in_world, zoom. cbn.
  destruct (OutputStream_write _ _ _) as [[u|e|] w1]; cbn; try reflexivity.
  destruct (Subprocess_wait _ _ _) as [[u'|e'|] w2]; reflexivity.
Qed.

(** The calls of the owner other than [finalize], and the exit of the
    child, touch neither the listener nor the owner. *)
Lemma enable_frame (m : Machine Owner) :
  this (snd (enable m)) = this m /\ owner (snd (enable m)) = owner m /\
  fst (enable m) <> Blocks.
Proof.
  unfold enable, bind, gets, in_world, zoom, OutputStream_write. cbn.
  destruct (output (this m)) as [p].
  destruct (lookup_process (world m) p) as [pr|]; cbn;
    [destruct (status pr)|]; cbn; repeat split; discriminate.
Qed.

Lemma disable_frame (m : Machine Owner) :
  this (snd (disable m)) = this m /\ owner (snd (disable m)) = owner m /\
  fst (disable m) <> Blocks.
Proof.
  unfold disable, bind, gets, in_world, zoom, OutputStream_write. cbn.
  destruct (output (this m)) as [p].
  destruct (lookup_process (world m) p) as [pr|]; cbn;
    [destruct (status pr)|]; cbn; repeat split; discriminate.
Qed.

End Steps.

(** ** Dispatching events *)

Section Dispatch.

Context {Owner : Type}.
Variable gettext : string -> string.
Variable env : Env.

Lemma dispatch_stdout (r : read_result) (m : Machine Owner) :
  dispatch gettext env (Stdout_read_completes r) m =
  match listen_input_task (this m) with
  | Awaiting_line => listen_input_resume r m
  | Finished => (Returns tt, m)
  end.
Proof.
  unfold dispatch, bind, gets.
  destruct (listen_input_task (this m)); reflexivity.
Qed.

Lemma dispatch_stderr (r : read_result) (m : Machine Owner) :
  dispatch gettext env (Stderr_read_completes r) m =
  match listen_error_task (this m) with
  | Awaiting_line => listen_error_resume gettext r m
  | Finished => (Returns tt, m)
  end.
Proof.
  unfold dispatch, bind, gets.
  destruct (listen_error_task (this m)); reflexivity.
Qed.

Lemma dispatch_child_exits (m : Machine Owner) :
  dispatch gettext env Child_exits m =
  (Returns tt,
   {| this := this m;
      world := update_world (subprocess (this m)) (set_status Exited) (world m);
      owner := owner m |}).
Proof. reflexivity. Qed.

Lemma run_cons (e : event) (evs : list event) (m : Machine Owner) :
  run gettext env (e :: evs) m =
  match fst (dispatch gettext env e m) with
  | Blocks => snd (dispatch gettext env e m)
  | _ => run gettext env evs (snd (dispatch gettext env e m))
  end.
Proof.
  simpl. destruct (dispatch gettext env e m) as [[u|x|] m']; reflexivity.
Qed.

(** A property kept by every event is kept by a run. *)
Lemma run_invariant (P : Machine Owner -> Prop) :
  (forall e m, P m -> P (snd (dispatch gettext env e m))) ->
  forall evs m, P m -> P (run gettext env evs m).
Proof.
  intros step evs. induction evs as [|e evs IH]; intros m Hm; [exact Hm|].
  rewrite run_cons. specialize (step e m Hm).
  destruct (fst (dispatch gettext env e m)); auto.
Qed.

Lemma finalize_stopped (m : Machine Owner) : stopped (snd (finalize env m)).
Proof. split; rewrite finalize_this; reflexivity. Qed.

(** What an event does to the listener object. *)
Lemma dispatch_this (e : event) (m : Machine Owner) :
  let l := this m in
  let l' := this (snd (dispatch gettext env e m)) in
  match e with
  | Stdout_read_completes _ =>
      l' = l \/ l' = set_listen_input_task (next_task (end_listen l)) l
  | Stderr_read_completes _ =>
      l' = l \/ l' = set_listen_error_task (next_task (end_listen l)) l
  | Owner_calls_finalize =>
      l' = set_end_listen true (set_callback_when_change (fun o => o) l)
  | _ => l' = l
  end.
Proof.
  destruct e; cbv zeta.
  - rewrite dispatch_stdout. destruct (listen_input_task (this m)); auto.
    rewrite listen_input_resume_step. auto.
  - rewrite dispatch_stderr. destruct (listen_error_task (this m)); auto.
    rewrite listen_error_resume_step. auto.
  - apply enable_frame.
  - apply disable_frame.
  - apply finalize_this.
  - reflexivity.
Qed.

Lemma dispatch_callback_for_errors (e : event) (m : Machine Owner) :
  callback_for_errors (this (snd (dispatch gettext env e m))) =
  callback_for_errors (this m).
Proof.
  pose proof (dispatch_this e m) as H. cbv zeta in H.
  destruct e; try destruct H as [H|H]; rewrite H; reflexivity.
Qed.

Lemma dispatch_stopped (e : event) (m : Machine Owner) :
  stopped m -> stopped (snd (dispatch gettext env e m)).
Proof.
  intros [Hs Hc]. pose proof (dispatch_this e m) as H. cbv zeta in H.
  unfold stopped.
  destruct e; try destruct H as [H|H]; rewrite H; cbn; auto.
Qed.

Lemma dispatch_input_finished (e : event) (m : Machine Owner) :
  stopped m /\ listen_input_task (this m) = Finished ->
  stopped (snd (dispatch gettext env e m)) /\
  listen_input_task (this (snd (dispatch gettext env e m))) = Finished.
Proof.
  intros [Hs Hf]. split; [now apply dispatch_stopped|].
  pose proof (dispatch_this e m) as H. cbv zeta in H.
  destruct Hs as [Hs _].
  destruct e; try destruct H as [H|H]; rewrite H; cbn; auto.
  rewrite Hs. reflexivity.
Qed.

(** With the no-op in place of the change callback, an event changes the
    owner only through the error callback. *)
Lemma dispatch_owner_stopped (e : event) (m : Machine Owner) :
  stopped m ->
  owner (snd (dispatch gettext env e m)) = owner m \/
  exists v, owner (snd (dispatch gettext env e m)) =
            callback_for_errors (this m) v (owner m).
Proof.
  intros [Hs Hc]. destruct e.
  - left. rewrite dispatch_stdout. destruct (listen_input_task (this m)); auto.
    rewrite listen_input_resume_step. cbn. now rewrite Hc.
  - rewrite dispatch_stderr. destruct (listen_error_task (this m)); auto.
    rewrite listen_error_resume_step. cbn.
    destruct r as [text| |msg]; cbn; eauto.
    destruct (nonempty text); eauto.
  - left. apply enable_frame.
  - left. apply disable_frame.
  - left. apply finalize_owner.
  - left. reflexivity.
Qed.

End Dispatch.

(** ** Runs seen by a recording owner *)

Section Recorded.

Variable gettext : string -> string.
Variable env : Env.

Lemma error_effect_record (r : read_result) (log : Recorder) :
  error_effect gettext record_error r log =
  (log ++ error_effect gettext record_error r [])%list.
Proof.
  destruct r as [text| |msg]; cbn; try (now rewrite app_nil_r).
  - destruct (nonempty text); cbn; [reflexivity | now rewrite app_nil_r].
  - reflexivity.
Qed.

Lemma dispatch_listening (e : event) (m : Machine Recorder) :
  listening m -> is_finalize e = false ->
  fst (dispatch gettext env e m) <> Blocks /\
  listening (snd (dispatch gettext env e m)) /\
  owner (snd (dispatch gettext env e m)) = (owner m ++ told gettext e)%list.
Proof.
  intros (Hc & He & Hs & Hi & Hr) Hf. unfold listening.
  destruct e; try discriminate Hf.
  - rewrite dispatch_stdout, Hi, listen_input_resume_step. cbn.
    rewrite Hs, Hc. cbn. repeat split; auto; discriminate.
  - rewrite dispatch_stderr, Hr, listen_error_resume_step. cbn.
    rewrite Hs, He. cbn. rewrite error_effect_record.
    repeat split; auto; discriminate.
  - destruct (enable_frame m) as (Ht & Ho & Hb). cbn [dispatch].
    rewrite Ht, Ho. cbn. rewrite app_nil_r. auto 10.
  - destruct (disable_frame m) as (Ht & Ho & Hb). cbn [dispatch].
    rewrite Ht, Ho. cbn. rewrite app_nil_r. auto 10.
  - rewrite dispatch_child_exits. cbn. rewrite app_nil_r.
    repeat split; auto; discriminate.
Qed.

(** Before teardown the owner is told exactly what the events carry, in
    their order, and the listener keeps listening. *)
Lemma run_listening (evs : list event) (m : Machine Recorder) :
  listening m -> before_teardown evs = true ->
  listening (run gettext env evs m) /\
  owner (run gettext env evs m) = (owner m ++ flat_map (told gettext) evs)%list.
Proof.
  revert m. induction evs as [|e evs IH]; intros m Hm Hb.
  - cbn. now rewrite app_nil_r.
  - cbn in Hb. apply andb_prop in Hb as [He Hb].
    apply negb_true_iff in He.
    destruct (dispatch_listening e m Hm He) as (Hnb & Hl & Ho).
    rewrite run_cons.
    destruct (IH _ Hl Hb) as [IH1 IH2].
    destruct (fst (dispatch gettext env e m)); try congruence;
      (split; [exact IH1|]); rewrite IH2, Ho; cbn [flat_map];
      now rewrite app_assoc.
Qed.

Lemma changes_app (a b : Recorder) :
  changes (a ++ b)%list = changes a + changes b.
Proof. unfold changes. now rewrite filter_app, length_app. Qed.

Lemma error_reports_app (a b : Recorder) :
  error_reports (a ++ b)%list = (error_reports a ++ error_reports b)%list.
Proof. apply filter_app. Qed.

Lemma changes_error_effect (r : read_result) :
  changes (error_effect gettext record_error r []) = 0.
Proof.
  destruct r as [text| |msg]; cbn; try reflexivity.
  destruct (nonempty text); reflexivity.
Qed.

Lemma changes_told (evs : list event) :
  stdout_delivers_lines evs = true ->
  changes (flat_map (told gettext) evs) = length (stdout_lines evs).
Proof.
  induction evs as [|e evs IH]; intros H; [reflexivity|].
  cbn in H. apply andb_prop in H as [He H]. specialize (IH H).
  cbn [flat_map]. rewrite changes_app, IH.
  destruct e as [[text| |msg]|r| | | |]; try discriminate He;
    try reflexivity.
  cbn [told stdout_lines]. now rewrite changes_error_effect.
Qed.

Lemma error_reports_told (evs : list event) :
  stderr_delivers_lines evs = true ->
  error_reports (flat_map (told gettext) evs) =
  map (fun text => Error_reported (JS_string (error_output_message gettext text)))
      (filter nonempty (stderr_lines evs)).
Proof.
  induction evs as [|e evs IH]; intros H; [reflexivity|].
  cbn in H. apply andb_prop in H as [He H]. specialize (IH H).
  cbn [flat_map]. rewrite error_reports_app, IH.
  destruct e as [r|[text| |msg]| | | |]; try discriminate He;
    try reflexivity.
  cbn [told stderr_lines error_effect filter].
  destruct (nonempty text); reflexivity.
Qed.

Lemma forallb_firstn {A} (f : A -> bool) (k : nat) (l : list A) :
  forallb f l = true -> forallb f (firstn k l) = true.
Proof.
  revert k; induction l as [|a l IH]; intros [|k] H; try reflexivity.
  cbn in *. apply andb_prop in H as [Ha H]. now rewrite Ha, IH.
Qed.

(** After teardown has begun, a recording owner is told of no change. *)
Lemma dispatch_changes_stopped (e : event) (m : Machine Recorder) :
  stopped m /\ callback_for_errors (this m) = record_error ->
  changes (owner (snd (dispatch gettext env e m))) = changes (owner m).
Proof.
  intros [Hs He].
  destruct (dispatch_owner_stopped gettext env e m Hs) as [H|[v H]];
    rewrite H; [reflexivity|].
  rewrite He. unfold record_error. rewrite changes_app. cbn. lia.
Qed.

Lemma run_changes_stopped (evs : list event) (m : Machine Recorder) :
  stopped m -> callback_for_errors (this m) = record_error ->
  changes (owner (run gettext env evs m)) = changes (owner m).
Proof.
  intros Hs He.
  apply (run_invariant gettext env
           (fun m' => (stopped m' /\ callback_for_errors (this m') = record_error)
                      /\ changes (owner m') = changes (owner m))); auto.
  intros e m' [Hinv Hc]. split.
  - split; [now apply dispatch_stopped|].
    rewrite dispatch_callback_for_errors. apply Hinv.
  - now rewrite dispatch_changes_stopped.
Qed.

End Recorded.

(** ** Construction *)

Section Construction.

Context {Owner : Type}.
Variable gettext : string -> string.
Variable env : Env.
Variable path : string.
Variable on_change : Owner -> Owner.
Variable on_error : js_value -> Owner -> Owner.

Lemma truthy_js_and (a b : option string) :
  truthy (js_and a b) = truthy a && truthy b.
Proof. unfold js_and. destruct (truthy a) eqn:Ha; [reflexivity | exact Ha]. Qed.

Lemma compilation_failed_message_contains (detail : string) :
  contains (compilation_failed_message gettext detail) detail.
Proof.
  unfold compilation_failed_message.
  repeat rewrite <- append_assoc. apply contains_suffix.
Qed.

Lemma error_output_message_contains (line : string) :
  contains (error_output_message gettext line) line.
Proof.
  unfold error_output_message.
  repeat rewrite <- append_assoc. apply contains_suffix.
Qed.

Lemma built_world_argv (w : World) :
  map argv (processes (built_world path w)) =
  (map argv (processes w) ++ [(make_argv path)])%list.
Proof.
  unfold built_world, update_world. cbn [processes].
  rewrite update_keeps_argv by reflexivity. now rewrite map_app.
Qed.

(** The constructor up to the end of the build step. *)
Lemma constructor_build (w : World) :
  tools_found env = true ->
  launch_error env (make_argv path) = None ->
  constructor gettext env path on_change on_error w =
  match communicate_result env (make_argv path) with
  | inr m =>
      (Throws (JS_Error (compilation_failed_message gettext m)), built_world path w)
  | inl stderr =>
      if exit_success env (make_argv path)
      then
        match launch_error env (executable_argv path) with
        | Some m => (Throws (GLib_Error m), built_world path w)
        | None =>
            let p := length (processes (built_world path w)) in
            (Returns {| callback_when_change := on_change;
                        callback_for_errors := on_error;
                        subprocess := p;
                        input := Data_input_stream (Stdout_pipe p);
                        input_error := Data_input_stream (Stderr_pipe p);
                        output := Stdin_pipe p;
                        end_listen := false;
                        listen_input_task := Awaiting_line;
                        listen_error_task := Awaiting_line |},
             {| processes := (processes (built_world path w) ++
                  [{| argv := (executable_argv path);
                      flags := [STDOUT_PIPE; STDIN_PIPE; STDERR_PIPE];
                      status := Running; stdin := [] |}])%list |})
        end
      else
        (Throws (JS_Error (compilation_failed_message gettext stderr)),
         built_world path w)
  end.
Proof.
  intros Ht Hl. unfold constructor.
  rewrite truthy_js_and. fold (tools_found env). rewrite Ht. cbn [negb].
  fold (make_argv path) (executable_argv path).
  unfold bind at 1. unfold Subprocess_new_init at 1. rewrite Hl.
  unfold bind at 1. unfold try_catch, bind at 1.
  unfold communicate_utf8, lookup_process. cbn [processes].
  rewrite lookup_appended. cbn [argv].
  fold (built_world path w).
  destruct (communicate_result env (make_argv path)) as [stderr|m].
  - unfold bind at 1, get_successful, lookup_process.
    unfold built_world at 1 2, update_world at 1 2. cbn [processes].
    rewrite lookup_update, lookup_appended. cbn [option_map argv set_status].
    fold (built_world path w).
    destruct (exit_success env (make_argv path)); cbn [negb].
    + unfold ret at 1. unfold bind at 1, Subprocess_new_init.
      destruct (launch_error env (executable_argv path));
        reflexivity.
    + reflexivity.
  - reflexivity.
Qed.

End Construction.

(** ** The claims *)

(** C8.  When [make] or [gcc] is not found on the command search path, the
    constructor raises the error carrying the remediation message, and the
    world is as it was: no subprocess has been launched, neither the build
    step nor the child. *)
Theorem missing_tool_fails_before_any_spawn {Owner : Type}
  (gettext : string -> string) (env : Env) (path : string)
  (on_change : Owner -> Owner) (on_error : js_value -> Owner -> Owner)
  (w : World) :
  find_program_in_path env "make" = None \/
  find_program_in_path env "gcc" = None ->
  constructor gettext env path on_change on_error w =
  (Throws (JS_Error (missing_dependencies_message gettext)), w).
Proof.
  intros H. unfold constructor. rewrite truthy_js_and.
  destruct H as [H|H]; rewrite H; cbn [truthy]; [reflexivity|].
  now rewrite andb_false_r.
Qed.

Lemma missing_tool_fails_before_any_spawn_witness :
  find_program_in_path Demo.env_without_gcc "gcc" = None /\
  constructor Demo.gettext Demo.env_without_gcc Demo.path
    record_change record_error Demo.empty_world =
  (Throws (JS_Error (missing_dependencies_message Demo.gettext)),
   Demo.empty_world).
Proof.
  split; [reflexivity|].
  apply (missing_tool_fails_before_any_spawn Demo.gettext Demo.env_without_gcc).
  right. reflexivity.
Defined.



(** A successful construction leaves a listening machine wired to a running
    child. *)
Lemma constructor_returns (gettext : string -> string) (env : Env)
  (path : string) (w w' : World) (l : Time_change_listener Recorder) :
  constructor gettext env path record_change record_error w = (Returns l, w') ->
  let m := {| this := l; world := w'; owner := [] |} in
  listening m /\
  exists pr, wired m (subprocess l) pr /\ status pr = Running /\ stdin pr = [].
Proof.
  intros H.
  destruct (tools_found env) eqn:Ht.
  2: { unfold constructor in H. rewrite truthy_js_and in H.
       fold (tools_found env) in H. rewrite Ht in H. discriminate. }
  destruct (launch_error env (make_argv path)) eqn:Hl.
  { unfold constructor in H. rewrite truthy_js_and in H.
    fold (tools_found env) in H. rewrite Ht in H. cbn [negb] in H.
    unfold bind at 1 in H. unfold Subprocess_new_init at 1 in H.
    fold (make_argv path) in H. rewrite Hl in H. discriminate. }
  rewrite constructor_build in H by assumption.
  destruct (communicate_result env (make_argv path)); [|discriminate].
  destruct (exit_success env (make_argv path)); [|discriminate].
  destruct (launch_error env (executable_argv path)); [discriminate|].
  cbv zeta in H. injection H as <- <-. cbv zeta. split.
  - repeat split.
  - eexists. unfold wired, lookup_process.
    cbn [this world subprocess output processes].
    rewrite lookup_appended. repeat split.
Qed.

(** The concrete machine is the one the constructor builds. *)
Lemma demo_constructed :
  constructor Demo.gettext Demo.env Demo.path record_change record_error
    Demo.empty_world = (Returns Demo.listener, Demo.started_world).
Proof. reflexivity. Qed.

Lemma demo_listening : listening Demo.machine.
Proof. repeat split. Qed.

Lemma demo_wired : wired Demo.machine 1 Demo.child.
Proof. repeat split. Qed.

(** C1, as the code has it.  From a listening machine and before any call
    of [finalize], when
    every read completed on the child's standard output delivered a line
    (of whatever content), after each prefix of the events the owner's
    [onChange] has been called once per line read so far: the count follows
    the lines one by one, in their order, whatever happens meanwhile on the
    error stream or through [enable] and [disable]. *)
Theorem onChange_once_per_stdout_line (gettext : string -> string) (env : Env)
  (m : Machine Recorder) (evs : list event) (k : nat) :
  listening m ->
  before_teardown evs = true ->
  stdout_delivers_lines evs = true ->
  changes (owner (run gettext env (firstn k evs) m)) =
  changes (owner m) + length (stdout_lines (firstn k evs)).
Proof.
  intros Hm Hb Hs.
  apply (forallb_firstn _ k) in Hb. apply (forallb_firstn _ k) in Hs.
  destruct (run_listening gettext env (firstn k evs) m Hm Hb) as [_ Ho].
  rewrite Ho, changes_app. f_equal. now apply changes_told.
Qed.

Lemma onChange_once_per_stdout_line_witness :
  listening Demo.machine /\
  changes (owner (run Demo.gettext Demo.env
                    [Stdout_read_completes (Line "changed");
                     Stderr_read_completes (Line "warn: clock skew");
                     Owner_calls_enable;
                     Stdout_read_completes (Line "changed")]
                    Demo.machine)) = 2.
Proof.
  split; [exact demo_listening|].
  apply (onChange_once_per_stdout_line Demo.gettext Demo.env Demo.machine
           [Stdout_read_completes (Line "changed");
            Stderr_read_completes (Line "warn: clock skew");
            Owner_calls_enable;
            Stdout_read_completes (Line "changed")] 4);
    [exact demo_listening | reflexivity | reflexivity].
Defined.

(** C1 fails as stated: on a listening machine the child writes one line
    and exits, well before any teardown.  The reads that then complete with
    the end of the stream call the change callback as well: one line was
    read and the owner has been told of four changes. *)
Lemma onChange_counts_end_of_stream :
  let evs := [Stdout_read_completes (Line "changed");
              Child_exits;
              Stdout_read_completes End_of_stream;
              Stdout_read_completes End_of_stream;
              Stdout_read_completes End_of_stream] in
  before_teardown evs = true /\
  stdout_lines evs = ["changed"] /\
  changes (owner (run Demo.gettext Demo.env evs Demo.machine)) = 4.
Proof. repeat split. Qed.

(** C5.  From a listening machine and before any call of [finalize], when
    every read completed on the child's standard error delivered a line, the
    error reports the owner received are exactly one per non-empty line, in
    the order of the lines, each the message built around that line; an
    empty line adds none.  The message contains the line verbatim. *)
Theorem onError_once_per_nonempty_stderr_line (gettext : string -> string)
  (env : Env) (m : Machine Recorder) (evs : list event) :
  listening m ->
  before_teardown evs = true ->
  stderr_delivers_lines evs = true ->
  error_reports (owner (run gettext env evs m)) =
  (error_reports (owner m) ++
   map (fun text => Error_reported (JS_string (error_output_message gettext text)))
       (filter nonempty (stderr_lines evs)))%list
  /\ forall text, contains (error_output_message gettext text) text.
Proof.
  intros Hm Hb Hs. split.
  - destruct (run_listening gettext env evs m Hm Hb) as [_ Ho].
    rewrite Ho, error_reports_app. f_equal. now apply error_reports_told.
  - apply error_output_message_contains.
Qed.

Lemma onError_once_per_nonempty_stderr_line_witness :
  listening Demo.machine /\
  error_reports (owner (run Demo.gettext Demo.env
                          [Stderr_read_completes (Line "warn: clock skew");
                           Stdout_read_completes (Line "changed");
                           Stderr_read_completes (Line EmptyString)]
                          Demo.machine)) =
  [Error_reported
     (JS_string (error_output_message Demo.gettext "warn: clock skew"))]
  /\ forall text, contains (error_output_message Demo.gettext text) text.
Proof.
  split; [exact demo_listening|].
  apply (onError_once_per_nonempty_stderr_line Demo.gettext Demo.env
           Demo.machine
           [Stderr_read_completes (Line "warn: clock skew");
            Stdout_read_completes (Line "changed");
            Stderr_read_completes (Line EmptyString)]);
    [exact demo_listening | reflexivity | reflexivity].
Defined.

(** C3.  Once [finalize] has run, whatever completes or is called
    afterwards (lines the child had buffered on its output included), a
    recording owner sees no further change: the count of [onChange] calls
    stays what it was when [finalize] was called. *)
Theorem no_onChange_after_finalize (gettext : string -> string) (env : Env)
  (m : Machine Recorder) (evs : list event) :
  callback_for_errors (this m) = record_error ->
  changes (owner (run gettext env evs (snd (finalize env m)))) =
  changes (owner m).
Proof.
  intros He.
  rewrite run_changes_stopped.
  - now rewrite finalize_owner.
  - apply finalize_stopped.
  - now rewrite finalize_this.
Qed.

Lemma no_onChange_after_finalize_witness :
  callback_for_errors (this Demo.machine) = record_error /\
  fst (finalize Demo.env Demo.machine) = Returns tt /\
  changes (owner (run Demo.gettext Demo.env
                    [Stdout_read_completes (Line "changed");
                     Stdout_read_completes (Line "changed");
                     Stdout_read_completes End_of_stream]
                    (snd (finalize Demo.env Demo.machine)))) = 0.
Proof.
  split; [reflexivity|]. split; [reflexivity|].
  apply (no_onChange_after_finalize Demo.gettext Demo.env Demo.machine).
  reflexivity.
Defined.

(** C2, as the code has it.  When the write on the child's input stream
    fails (the child has exited: broken pipe), [enable] and [disable] raise
    the failure to their caller and leave the machine as it was: the error
    callback is not called. *)
Theorem write_failure_is_raised_to_caller {Owner : Type} (m : Machine Owner)
  (p : Subprocess) (pr : process) :
  output (this m) = Stdin_pipe p ->
  lookup_process (world m) p = Some pr ->
  status pr = Exited ->
  enable m = (Throws broken_pipe, m) /\ disable m = (Throws broken_pipe, m).
Proof.
  intros Ho Hl Hs. unfold enable, disable, bind, gets. rewrite Ho.
  split; apply (write_exited m p pr); assumption.
Qed.

Lemma write_failure_is_raised_to_caller_witness :
  let m := run Demo.gettext Demo.env [Child_exits] Demo.machine in
  enable m = (Throws broken_pipe, m) /\ disable m = (Throws broken_pipe, m).
Proof.
  apply (write_failure_is_raised_to_caller
           (run Demo.gettext Demo.env [Child_exits] Demo.machine)
           1 (set_status Exited Demo.child)); reflexivity.
Defined.

(** C2 fails as stated: after a successful construction the child exits;
    the write of [enable] then fails, the failure is raised to the caller
    and the recording owner has received no error report. *)
Lemma enable_failure_not_sent_to_onError :
  let m := run Demo.gettext Demo.env [Child_exits] Demo.machine in
  fst (enable m) = Throws broken_pipe /\
  error_reports (owner (snd (enable m))) = [].
Proof. split; reflexivity. Qed.

(** C4, as the code has it.  For a listener wired to its child:
    - while the child runs and honours [exit], [finalize] returns, having
      written the single command [exit] on the child's input, with the
      child exited;
    - while the child runs and ignores [exit], [finalize] never returns;
    - once the child has exited (a second call), [finalize] does not hang:
      nothing is written and the write failure is raised to the caller. *)
Theorem finalize_sends_exit_then_waits {Owner : Type} (env : Env)
  (m : Machine Owner) (p : Subprocess) (pr : process) :
  wired m p pr ->
  let after := lookup_process (world (snd (finalize env m))) p in
  match status pr with
  | Running =>
      if exits_on_exit_command env (argv pr)
      then fst (finalize env m) = Returns tt /\
           after = Some {| argv := argv pr; flags := flags pr;
                           status := Exited;
                           stdin := (stdin pr ++ [("exit" ++ LF)%string])%list |}
      else fst (finalize env m) = Blocks /\
           after = Some {| argv := argv pr; flags := flags pr;
                           status := Running;
                           stdin := (stdin pr ++ [("exit" ++ LF)%string])%list |}
  | Exited =>
      fst (finalize env m) = Throws broken_pipe /\
      world (snd (finalize env m)) = world m
  end.
Proof.
  intros (Hp & Ho & Hl). cbv zeta.
  set (m0 := {| this := set_end_listen true
                          (set_callback_when_change (fun o => o) (this m));
                world := world m; owner := owner m |}).
  assert (E : finalize env m =
              match in_world (OutputStream_write (output (this m)) ("exit" ++ LF))
                      m0 with
              | (Returns _, m1) =>
                  in_world (Subprocess_wait env (subprocess (this m1))) m1
              | (Throws e, m1) => (Throws e, m1)
              | (Blocks, m1) => (Blocks, m1)
              end) by reflexivity.
  rewrite E, Ho. clear E.
  destruct (status pr) eqn:Hs.
  - rewrite (write_running m0 p pr) by assumption.
    cbn [this m0 subprocess set_end_listen set_callback_when_change].
    rewrite Hp.
    unfold in_world, zoom, Subprocess_wait, lookup_process, update_world.
    cbn [world processes this owner m0].
    rewrite lookup_update. unfold lookup_process in Hl. rewrite Hl.
    cbn [option_map push_stdin status argv stdin told_to_exit].
    rewrite Hs, told_after_exit, andb_true_r.
    destruct (exits_on_exit_command env (argv pr)); cbn [fst snd world processes].
    + rewrite !lookup_update, Hl. split; reflexivity.
    + rewrite lookup_update, Hl. unfold push_stdin. cbn. rewrite Hs.
      split; reflexivity.
  - rewrite (write_exited m0 p pr) by assumption. split; reflexivity.
Qed.

Lemma finalize_sends_exit_then_waits_witness :
  wired Demo.machine 1 Demo.child /\
  fst (finalize Demo.env Demo.machine) = Returns tt /\
  lookup_process (world (snd (finalize Demo.env Demo.machine))) 1 =
  Some {| argv := argv Demo.child; flags := flags Demo.child;
          status := Exited; stdin := ["exit" ++ LF] |}.
Proof.
  split; [exact demo_wired|].
  apply (finalize_sends_exit_then_waits Demo.env Demo.machine 1 Demo.child).
  exact demo_wired.
Defined.

(** C4 fails as stated: the first [finalize] returns with the child exited;
    a second call raises the write failure to its caller, and the child's
    input holds the one [exit] of the first call only. *)
Lemma second_finalize_raises :
  let m1 := snd (finalize Demo.env Demo.machine) in
  fst (finalize Demo.env Demo.machine) = Returns tt /\
  fst (finalize Demo.env m1) = Throws broken_pipe /\
  option_map stdin (lookup_process (world (snd (finalize Demo.env m1))) 1) =
  Some ["exit" ++ LF].
Proof. repeat split. Qed.

(** C6, as the code has it.  Once [finalize] has set the stop flag, the
    read on the child's output that completes because the stream closed ends
    the loop: the owner is not told of a change, no further read is issued,
    and whatever happens afterwards the loop stays ended, a later completion
    on the output stream finding nobody to deliver to. *)
Theorem closed_stdout_ends_loop_once_stopped {Owner : Type}
  (gettext : string -> string) (env : Env) (m : Machine Owner)
  (evs : list event) (r : read_result) :
  listen_input_task (this m) = Awaiting_line ->
  let m1 := snd (finalize env m) in
  let m2 := snd (dispatch gettext env (Stdout_read_completes End_of_stream) m1) in
  let m3 := run gettext env evs m2 in
  listen_input_task (this m2) = Finished /\
  owner m2 = owner m /\
  listen_input_task (this m3) = Finished /\
  dispatch gettext env (Stdout_read_completes r) m3 = (Returns tt, m3).
Proof.
  intros Hi. cbv zeta.
  set (m1 := snd (finalize env m)).
  assert (Hs1 : stopped m1) by apply finalize_stopped.
  assert (Hi1 : listen_input_task (this m1) = Awaiting_line).
  { unfold m1. rewrite finalize_this. exact Hi. }
  set (m2 := snd (dispatch gettext env (Stdout_read_completes End_of_stream) m1)).
  assert (E2 : m2 = {| this := set_listen_input_task Finished (this m1);
                       world := world m1; owner := owner m1 |}).
  { unfold m2. rewrite dispatch_stdout, Hi1, listen_input_resume_step.
    destruct Hs1 as [Hs Hc]. rewrite Hs, Hc. reflexivity. }
  assert (H2 : stopped m2 /\ listen_input_task (this m2) = Finished).
  { rewrite E2. destruct Hs1 as [Hs Hc]. repeat split; cbn; assumption. }
  split; [apply H2|]. split.
  { rewrite E2. cbn. apply finalize_owner. }
  pose proof (run_invariant gettext env
                (fun m' => stopped m' /\ listen_input_task (this m') = Finished)
                (dispatch_input_finished gettext env) evs m2 H2) as [_ H3].
  split; [exact H3|].
  rewrite dispatch_stdout, H3. reflexivity.
Qed.

Lemma closed_stdout_ends_loop_once_stopped_witness :
  let m1 := snd (finalize Demo.env Demo.machine) in
  let m2 := snd (dispatch Demo.gettext Demo.env
                   (Stdout_read_completes End_of_stream) m1) in
  let m3 := run Demo.gettext Demo.env [Stderr_read_completes End_of_stream] m2 in
  listen_input_task (this Demo.machine) = Awaiting_line /\
  listen_input_task (this m2) = Finished /\
  owner m2 = owner Demo.machine /\
  listen_input_task (this m3) = Finished /\
  dispatch Demo.gettext Demo.env (Stdout_read_completes (Line "late")) m3 =
  (Returns tt, m3).
Proof.
  split; [reflexivity|].
  apply (closed_stdout_ends_loop_once_stopped Demo.gettext Demo.env
           Demo.machine [Stderr_read_completes End_of_stream] (Line "late")).
  reflexivity.
Defined.

(** C6 fails as stated: on a listening machine (no teardown), the read that
    completes because the output stream closed does not end the loop.  The
    owner is told of a change, another read is pending, and the next
    completion tells the owner again. *)
Lemma closed_stdout_keeps_looping :
  let m1 := run Demo.gettext Demo.env
              [Stdout_read_completes End_of_stream] Demo.machine in
  let m2 := run Demo.gettext Demo.env
              [Stdout_read_completes End_of_stream] m1 in
  listen_input_task (this m1) = Awaiting_line /\
  owner m1 = [Changed] /\
  owner m2 = [Changed; Changed].
Proof. repeat split. Qed.

(** C7, as the code has it.  When the pending read on the child's error
    stream fails, the error callback is called once for the failure; the
    loop then ends only if the stop flag is set and otherwise waits for the
    next line.  Nothing else moves: the other loop, the other fields and
    the world are as before. *)
Theorem stderr_read_failure_reported {Owner : Type}
  (gettext : string -> string) (env : Env) (m : Machine Owner) (msg : string) :
  listen_error_task (this m) = Awaiting_line ->
  exists v : js_value,
    dispatch gettext env (Stderr_read_completes (Read_failed msg)) m =
    (Returns tt,
     {| this := set_listen_error_task
                  (if end_listen (this m) then Finished else Awaiting_line)
                  (this m);
        world := world m;
        owner := callback_for_errors (this m) v (owner m) |}).
Proof.
  intros He. rewrite dispatch_stderr, He, listen_error_resume_step.
  eexists. reflexivity.
Qed.

Lemma stderr_read_failure_reported_witness :
  listen_error_task (this Demo.machine) = Awaiting_line /\
  exists v : js_value,
    dispatch Demo.gettext Demo.env
      (Stderr_read_completes (Read_failed "Stream is closed")) Demo.machine =
    (Returns tt,
     {| this := Demo.listener;
        world := Demo.started_world;
        owner := record_error v [] |}).
Proof.
  split; [reflexivity|].
  apply (stderr_read_failure_reported Demo.gettext Demo.env Demo.machine
           "Stream is closed").
  reflexivity.
Defined.

(** C7 fails as stated: on a listening machine, after a failed read on the
    error stream the loop has not stopped.  A read is pending again and the
    line it delivers is reported to the owner, after the report of the
    failure. *)
Lemma stderr_loop_survives_read_failure :
  let m1 := run Demo.gettext Demo.env
              [Stderr_read_completes (Read_failed "Stream is closed")]
              Demo.machine in
  let m2 := run Demo.gettext Demo.env
              [Stderr_read_completes (Line "warn: clock skew")] m1 in
  listen_error_task (this m1) = Awaiting_line /\
  length (owner m1) = 1 /\
  owner m2 =
  (owner m1 ++
   [Error_reported
      (JS_string (error_output_message Demo.gettext "warn: clock skew"))])%list.
Proof. repeat split. Qed.

(** C10.  Whatever its outcome, [finalize] changes the listener object in
    its change callback and its stop flag only.  The error callback is the
    one given at construction, so a non-empty line that completes the
    pending read on the error stream afterwards is still reported to the
    owner through it. *)
Theorem finalize_keeps_error_callback {Owner : Type}
  (gettext : string -> string) (env : Env) (m : Machine Owner) (text : string) :
  listen_error_task (this m) = Awaiting_line ->
  nonempty text = true ->
  let m1 := snd (finalize env m) in
  this m1 = set_end_listen true (set_callback_when_change (fun o => o) (this m)) /\
  callback_for_errors (this m1) = callback_for_errors (this m) /\
  owner m1 = owner m /\
  owner (snd (dispatch gettext env (Stderr_read_completes (Line text)) m1)) =
  callback_for_errors (this m)
    (JS_string (error_output_message gettext text)) (owner m).
Proof.
  intros He Ht. cbv zeta.
  split; [apply finalize_this|].
  split; [now rewrite finalize_this|].
  split; [apply finalize_owner|].
  rewrite dispatch_stderr, finalize_this. cbn [listen_error_task set_end_listen
    set_callback_when_change]. rewrite He, listen_error_resume_step.
  cbn [owner error_effect]. rewrite Ht, finalize_this, finalize_owner.
  reflexivity.
Qed.

Lemma finalize_keeps_error_callback_witness :
  let m1 := snd (finalize Demo.env Demo.machine) in
  listen_error_task (this Demo.machine) = Awaiting_line /\
  this m1 = set_end_listen true
              (set_callback_when_change (fun o => o) Demo.listener) /\
  callback_for_errors (this m1) = record_error /\
  owner m1 = [] /\
  owner (snd (dispatch Demo.gettext Demo.env
                (Stderr_read_completes (Line "late")) m1)) =
  [Error_reported (JS_string (error_output_message Demo.gettext "late"))].
Proof.
  split; [reflexivity|].
  apply (finalize_keeps_error_callback Demo.gettext Demo.env Demo.machine "late");
    reflexivity.
Defined.

(** * Further properties of the code *)

(** ** Construction: the remaining outcomes *)

Lemma constructor_tools_found {Owner : Type} (gettext : string -> string)
  (env : Env) (path : string) (on_change : Owner -> Owner)
  (on_error : js_value -> Owner -> Owner) (w : World) :
  tools_found env = true ->
  constructor gettext env path on_change on_error w =
  bind (Subprocess_new_init env (make_argv path) [STDERR_PIPE])
    (fun compilation =>
       try_catch
         (stderr <- communicate_utf8 env compilation ;;
          successful <- get_successful env compilation ;;
          if negb successful then throw (JS_Error stderr) else ret tt)
         (fun error =>
            throw (JS_Error (compilation_failed_message gettext (message error)))) ;;
       subprocess <- Subprocess_new_init env (executable_argv path)
                       [STDOUT_PIPE; STDIN_PIPE; STDERR_PIPE] ;;
       ret {| callback_when_change := on_change;
              callback_for_errors := on_error;
              subprocess := subprocess;
              output := Stdin_pipe subprocess;
              input := Data_input_stream (Stdout_pipe subprocess);
              input_error := Data_input_stream (Stderr_pipe subprocess);
              end_listen := false;
              listen_input_task := Awaiting_line;
              listen_error_task := Awaiting_line |}) w.
Proof.
  intros Ht. unfold constructor. rewrite truthy_js_and.
  fold (tools_found env). rewrite Ht. reflexivity.
Qed.



(** When the tools are found but [make] cannot be launched, the constructor
    raises the [GLib.Error] of the launch as it is, not a compilation
    failure: the launch is outside the [try].  Nothing has been launched. *)
Theorem make_launch_failure_is_raised_as_is {Owner : Type}
  (gettext : string -> string) (env : Env) (path : string)
  (on_change : Owner -> Owner) (on_error : js_value -> Owner -> Owner)
  (w : World) (msg : string) :
  tools_found env = true ->
  launch_error env (make_argv path) = Some msg ->
  constructor gettext env path on_change on_error w = (Throws (GLib_Error msg), w).
Proof.
  intros Ht Hl. rewrite constructor_tools_found by exact Ht.
  unfold bind at 1. unfold Subprocess_new_init at 1. now rewrite Hl.
Qed.

Lemma make_launch_failure_is_raised_as_is_witness :
  constructor Demo.gettext Scenario.env_make_not_launched Demo.path
    record_change record_error Demo.empty_world =
  (Throws (GLib_Error "Failed to execute child process"), Demo.empty_world).
Proof.
  apply (make_launch_failure_is_raised_as_is Demo.gettext
           Scenario.env_make_not_launched); reflexivity.
Defined.

(** When collecting the output of the build step raises, whatever the exit
    status, the constructor raises a compilation failure whose message
    contains the message of that error; only the build step was launched. *)
Theorem communicate_failure_is_a_compilation_failure {Owner : Type}
  (gettext : string -> string) (env : Env) (path : string)
  (on_change : Owner -> Owner) (on_error : js_value -> Owner -> Owner)
  (w : World) (msg : string) :
  tools_found env = true ->
  launch_error env (make_argv path) = None ->
  communicate_result env (make_argv path) = inr msg ->
  exists (w' : World),
    constructor gettext env path on_change on_error w =
    (Throws (JS_Error (compilation_failed_message gettext msg)), w') /\
    contains (compilation_failed_message gettext msg) msg /\
    map argv (processes w') = (map argv (processes w) ++ [make_argv path])%list.
Proof.
  intros Ht Hl Hc. exists (built_world path w).
  rewrite (constructor_build gettext env path on_change on_error w Ht Hl), Hc.
  split; [reflexivity|]. split.
  - apply compilation_failed_message_contains.
  - apply built_world_argv.
Qed.

Lemma communicate_failure_is_a_compilation_failure_witness :
  exists (w' : World),
    constructor Demo.gettext Scenario.env_communicate_raises Demo.path
      record_change record_error Demo.empty_world =
    (Throws (JS_Error (compilation_failed_message Demo.gettext
                         "Invalid byte sequence in conversion input")), w') /\
    contains (compilation_failed_message Demo.gettext
                "Invalid byte sequence in conversion input")
             "Invalid byte sequence in conversion input" /\
    map argv (processes w') = [make_argv Demo.path].
Proof.
  apply (communicate_failure_is_a_compilation_failure Demo.gettext
           Scenario.env_communicate_raises Demo.path record_change record_error
           Demo.empty_world); reflexivity.
Defined.



(** ** Commands on the child's input *)

Lemma running_record (pr : process) :
  status pr = Running ->
  pr = {| argv := argv pr; flags := flags pr; status := Running;
          stdin := (stdin pr ++ [])%list |}.
Proof. destruct pr; cbn. intros ->. now rewrite app_nil_r. Qed.

Section Commands.

Context {Owner : Type}.
Variable gettext : string -> string.
Variable env : Env.

Lemma enable_running (m : Machine Owner) (p : Subprocess) (pr : process) :
  wired m p pr -> status pr = Running ->
  enable m =
  (Returns tt, {| this := this m;
                  world := update_world p (push_stdin ("enable" ++ LF)) (world m);
                  owner := owner m |}).
Proof.
  intros (_ & Ho & Hl) Hs. unfold enable, bind, gets. rewrite Ho.
  now apply write_running with (pr := pr).
Qed.

Lemma disable_running (m : Machine Owner) (p : Subprocess) (pr : process) :
  wired m p pr -> status pr = Running ->
  disable m =
  (Returns tt, {| this := this m;
                  world := update_world p (push_stdin ("disable" ++ LF)) (world m);
                  owner := owner m |}).
Proof.
  intros (_ & Ho & Hl) Hs. unfold disable, bind, gets. rewrite Ho.
  now apply write_running with (pr := pr).
Qed.

Lemma wired_after_write (m : Machine Owner) (p : Subprocess) (pr : process)
  (bytes : string) :
  wired m p pr ->
  wired {| this := this m;
           world := update_world p (push_stdin bytes) (world m);
           owner := owner m |} p (push_stdin bytes pr).
Proof.
  intros (Hp & Ho & Hl). repeat split; cbn [this world]; auto.
  unfold lookup_process, update_world. cbn [processes].
  rewrite lookup_update. unfold lookup_process in Hl. now rewrite Hl.
Qed.

Lemma wired_after_read (m : Machine Owner) (p : Subprocess) (pr : process)
  (e : event) :
  match e with
  | Stdout_read_completes _ | Stderr_read_completes _ => True
  | _ => False
  end ->
  wired m p pr ->
  fst (dispatch gettext env e m) = Returns tt /\
  wired (snd (dispatch gettext env e m)) p pr.
Proof.
  intros He (Hp & Ho & Hl). destruct e; try contradiction.
  - rewrite dispatch_stdout. destruct (listen_input_task (this m)).
    + rewrite listen_input_resume_step. repeat split; assumption.
    + repeat split; assumption.
  - rewrite dispatch_stderr. destruct (listen_error_task (this m)).
    + rewrite listen_error_resume_step. repeat split; assumption.
    + repeat split; assumption.
Qed.

End Commands.

(** While the child runs and is neither told to exit nor exits by itself,
    what it finds on its input is what it had, followed by one command per
    call of [enable] or [disable], in the order of the calls; the reads that
    complete meanwhile write nothing. *)
Theorem commands_reach_child_in_order {Owner : Type}
  (gettext : string -> string) (env : Env) (evs : list event)
  (m : Machine Owner) (p : Subprocess) (pr : process) :
  wired m p pr ->
  status pr = Running ->
  child_left_running evs = true ->
  lookup_process (world (run gettext env evs m)) p =
  Some {| argv := argv pr; flags := flags pr; status := Running;
          stdin := (stdin pr ++ commands evs)%list |}.
Proof.
  revert m pr. induction evs as [|e evs IH]; intros m pr Hw Hs Hc.
  - cbn [run commands]. destruct Hw as (_ & _ & Hl). rewrite Hl.
    f_equal. now apply running_record.
  - cbn [child_left_running forallb] in Hc. apply andb_prop in Hc as [He Hc].
    rewrite run_cons.
    destruct e; try discriminate He.
    + destruct (wired_after_read gettext env m p pr (Stdout_read_completes r) I Hw)
        as [E Hw'].
      rewrite E. cbn [commands]. now apply IH.
    + destruct (wired_after_read gettext env m p pr (Stderr_read_completes r) I Hw)
        as [E Hw'].
      rewrite E. cbn [commands]. now apply IH.
    + cbn [dispatch]. rewrite (enable_running m p pr Hw Hs). cbn [fst snd].
      rewrite (IH _ (push_stdin ("enable" ++ LF) pr));
        [| now apply wired_after_write | exact Hs | exact Hc].
      cbn [commands push_stdin argv flags stdin]. now rewrite <- app_assoc.
    + cbn [dispatch]. rewrite (disable_running m p pr Hw Hs). cbn [fst snd].
      rewrite (IH _ (push_stdin ("disable" ++ LF) pr));
        [| now apply wired_after_write | exact Hs | exact Hc].
      cbn [commands push_stdin argv flags stdin]. now rewrite <- app_assoc.
Qed.

Lemma commands_reach_child_in_order_witness :
  wired Demo.machine 1 Demo.child /\
  lookup_process
    (world (run Demo.gettext Demo.env
              [Owner_calls_enable; Stdout_read_completes (Line "changed");
               Owner_calls_disable; Owner_calls_enable]
              Demo.machine)) 1 =
  Some {| argv := argv Demo.child; flags := flags Demo.child;
          status := Running;
          stdin := [("enable" ++ LF)%string; ("disable" ++ LF)%string;
                    ("enable" ++ LF)%string] |}.
Proof.
  split; [exact demo_wired|].
  apply (commands_reach_child_in_order Demo.gettext Demo.env
           [Owner_calls_enable; Stdout_read_completes (Line "changed");
            Owner_calls_disable; Owner_calls_enable]
           Demo.machine 1 Demo.child);
    [exact demo_wired | reflexivity | reflexivity].
Defined.

(** ** Calls of the owner *)

Section OwnerCalls.

Context {Owner : Type}.
Variable gettext : string -> string.
Variable env : Env.

(** [finalize] on a child that runs and honours [exit]. *)
Lemma finalize_running (m : Machine Owner) (p : Subprocess) (pr : process) :
  wired m p pr -> status pr = Running ->
  exits_on_exit_command env (argv pr) = true ->
  finalize env m =
  (Returns tt,
   {| this := set_end_listen true
                (set_callback_when_change (fun o => o) (this m));
      world := update_world p (set_status Exited)
                 (update_world p (push_stdin ("exit" ++ LF)) (world m));
      owner := owner m |}).
Proof.
  intros (Hp & Ho & Hl) Hs Hx.
  set (m0 := {| this := set_end_listen true
                          (set_callback_when_change (fun o => o) (this m));
                world := world m; owner := owner m |}).
  assert (E : finalize env m =
              match in_world (OutputStream_write (output (this m)) ("exit" ++ LF))
                      m0 with
              | (Returns _, m1) =>
                  in_world (Subprocess_wait env (subprocess (this m1))) m1
              | (Throws e, m1) => (Throws e, m1)
              | (Blocks, m1) => (Blocks, m1)
              end) by reflexivity.
  rewrite E, Ho. clear E.
  rewrite (write_running m0 p pr) by assumption.
  cbn [this m0 subprocess set_end_listen set_callback_when_change].
  rewrite Hp.
  unfold in_world, zoom, Subprocess_wait, lookup_process, update_world.
  cbn [world processes this owner m0].
  rewrite lookup_update. unfold lookup_process in Hl. rewrite Hl.
  cbn [option_map push_stdin status argv stdin told_to_exit].
  rewrite Hs, told_after_exit, andb_true_r, Hx. reflexivity.
Qed.

(** What an event does to the world: the argument vectors of the table. *)
Lemma dispatch_world_argv (e : event) (m : Machine Owner) :
  map argv (processes (world (snd (dispatch gettext env e m)))) =
  map argv (processes (world m)).
Proof.
  destruct e.
  - rewrite dispatch_stdout. destruct (listen_input_task (this m)); auto.
    now rewrite listen_input_resume_step.
  - rewrite dispatch_stderr. destruct (listen_error_task (this m)); auto.
    now rewrite listen_error_resume_step.
  - cbn [dispatch]. unfold enable, bind, gets, in_world, zoom, OutputStream_write.
    cbn. destruct (output (this m)) as [q].
    destruct (lookup_process (world m) q) as [pq|]; [destruct (status pq)|];
      cbn; auto using update_keeps_argv.
  - cbn [dispatch]. unfold disable, bind, gets, in_world, zoom, OutputStream_write.
    cbn. destruct (output (this m)) as [q].
    destruct (lookup_process (world m) q) as [pq|]; [destruct (status pq)|];
      cbn; auto using update_keeps_argv.
  - cbn [dispatch].
    unfold finalize, bind, gets, set_this, modify, in_world, zoom,
      OutputStream_write, Subprocess_wait.
    cbn. destruct (output (this m)) as [q].
    destruct (lookup_process (world m) q) as [pq|]; [destruct (status pq)|];
      cbn; auto.
    repeat match goal with
           | |- context [match ?x with _ => _ end] =>
               match x with
               | context [match _ with _ => _ end] => fail 1
               | _ => destruct x; cbn
               end
           end;
      rewrite ?update_keeps_argv; auto.
  - rewrite dispatch_child_exits. cbn. auto using update_keeps_argv.
Qed.

End OwnerCalls.

(** Once [finalize] has returned from a child that honoured [exit], the
    commands are refused: [enable] and [disable] raise the broken pipe to
    their caller and change nothing. *)
Theorem commands_after_finalize_raise {Owner : Type} (env : Env)
  (m : Machine Owner) (p : Subprocess) (pr : process) :
  wired m p pr ->
  status pr = Running ->
  exits_on_exit_command env (argv pr) = true ->
  let m1 := snd (finalize env m) in
  fst (finalize env m) = Returns tt /\
  enable m1 = (Throws broken_pipe, m1) /\
  disable m1 = (Throws broken_pipe, m1).
Proof.
  intros Hw Hs Hx. cbv zeta.
  rewrite (finalize_running env m p pr Hw Hs Hx). cbn [fst snd].
  split; [reflexivity|].
  destruct Hw as (Hp & Ho & Hl).
  set (m1 := {| this := _; world := _; owner := _ |}).
  assert (Hl1 : lookup_process (world m1) p =
                Some (set_status Exited (push_stdin ("exit" ++ LF) pr))).
  { unfold m1, lookup_process, update_world. cbn [world processes].
    rewrite !lookup_update. unfold lookup_process in Hl. now rewrite Hl. }
  unfold enable, disable, bind, gets.
  replace (output (this m1)) with (Stdin_pipe p) by (symmetry; exact Ho).
  split; eapply write_exited; try exact Hl1; reflexivity.
Qed.

Lemma commands_after_finalize_raise_witness :
  let m1 := snd (finalize Demo.env Demo.machine) in
  wired Demo.machine 1 Demo.child /\
  fst (finalize Demo.env Demo.machine) = Returns tt /\
  enable m1 = (Throws broken_pipe, m1) /\
  disable m1 = (Throws broken_pipe, m1).
Proof.
  split; [exact demo_wired|].
  apply (commands_after_finalize_raise Demo.env Demo.machine 1 Demo.child);
    [exact demo_wired | reflexivity | reflexivity].
Defined.

(** The calls of the owner never call the owner back: whatever their
    outcome, [enable], [disable] and [finalize] leave the owner's state as
    it was.  [enable] and [disable] leave the listener object untouched as
    well. *)
Theorem owner_calls_do_not_call_back {Owner : Type} (env : Env)
  (m : Machine Owner) :
  owner (snd (enable m)) = owner m /\
  owner (snd (disable m)) = owner m /\
  owner (snd (finalize env m)) = owner m /\
  this (snd (enable m)) = this m /\
  this (snd (disable m)) = this m.
Proof.
  destruct (enable_frame m) as (Ht & Ho & _).
  destruct (disable_frame m) as (Ht' & Ho' & _).
  pose proof (finalize_owner env m). auto 10.
Qed.

(** After construction no process is ever launched: whatever the events,
    the table of processes holds the same programs, in the same order. *)
Theorem no_process_launched_by_a_run {Owner : Type}
  (gettext : string -> string) (env : Env) (evs : list event)
  (m : Machine Owner) :
  map argv (processes (world (run gettext env evs m))) =
  map argv (processes (world m)).
Proof.
  apply (run_invariant gettext env
           (fun m' => map argv (processes (world m')) =
                      map argv (processes (world m)))); [|reflexivity].
  intros e m' H. now rewrite dispatch_world_argv.
Qed.

(** ** The loops before teardown *)

Lemma changes_told_all (gettext : string -> string) (evs : list event) :
  changes (flat_map (told gettext) evs) = stdout_completions evs.
Proof.
  induction evs as [|e evs IH]; [reflexivity|].
  cbn [flat_map]. rewrite changes_app, IH.
  destruct e as [r|r| | | |]; try reflexivity.
  cbn [told stdout_completions]. now rewrite changes_error_effect.
Qed.

(** Before teardown the change callback is called once for every read that
    completes on the child's output, whatever the read delivered: a line,
    the end of the stream or a failure all count as a change. *)
Theorem onChange_on_every_stdout_completion (gettext : string -> string)
  (env : Env) (m : Machine Recorder) (evs : list event) :
  listening m ->
  before_teardown evs = true ->
  changes (owner (run gettext env evs m)) =
  changes (owner m) + stdout_completions evs.
Proof.
  intros Hm Hb.
  destruct (run_listening gettext env evs m Hm Hb) as [_ Ho].
  rewrite Ho, changes_app. f_equal. apply changes_told_all.
Qed.

Lemma onChange_on_every_stdout_completion_witness :
  listening Demo.machine /\
  changes (owner (run Demo.gettext Demo.env
                    [Stdout_read_completes (Line "changed");
                     Stdout_read_completes End_of_stream;
                     Stdout_read_completes (Read_failed "Stream is closed")]
                    Demo.machine)) = 3.
Proof.
  split; [exact demo_listening|].
  apply (onChange_on_every_stdout_completion Demo.gettext Demo.env Demo.machine
           [Stdout_read_completes (Line "changed");
            Stdout_read_completes End_of_stream;
            Stdout_read_completes (Read_failed "Stream is closed")]);
    [exact demo_listening | reflexivity].
Defined.

(** Before teardown neither loop ever ends, whatever the reads deliver and
    whatever else happens: after any such events the stop flag is unset and
    both loops wait for a line.  The owner has been told, in the order of
    the events and across both streams: of a change for each completion on
    the output; on the error stream, of each non-empty line by its message,
    of each failed read by the error object, and of nothing for an empty
    line or the end of the stream. *)
Theorem loops_keep_running_before_teardown (gettext : string -> string)
  (env : Env) (m : Machine Recorder) (evs : list event) :
  listening m ->
  before_teardown evs = true ->
  end_listen (this (run gettext env evs m)) = false /\
  listen_input_task (this (run gettext env evs m)) = Awaiting_line /\
  listen_error_task (this (run gettext env evs m)) = Awaiting_line /\
  owner (run gettext env evs m) =
  (owner m ++
   flat_map (fun e =>
               match e with
               | Stdout_read_completes _ => [Changed]
               | Stderr_read_completes (Line text) =>
                   if nonempty text
                   then [Error_reported
                           (JS_string (error_output_message gettext text))]
                   else []
               | Stderr_read_completes (Read_failed msg) =>
                   [Error_reported (JS_exn (GLib_Error msg))]
               | _ => []
               end) evs)%list.
Proof.
  intros Hm Hb.
  destruct (run_listening gettext env evs m Hm Hb) as [Hl Ho].
  destruct Hl as (_ & _ & Hs & Hi & He).
  repeat (split; [assumption|]).
  rewrite Ho. f_equal. apply flat_map_ext. intros e.
  destruct e as [r|[text| |msg]| | | |]; try reflexivity.
  cbn [told error_effect]. destruct (nonempty text); reflexivity.
Qed.

Lemma loops_keep_running_before_teardown_witness :
  let m' := run Demo.gettext Demo.env
              [Stderr_read_completes End_of_stream;
               Stdout_read_completes End_of_stream;
               Stderr_read_completes (Read_failed "Stream is closed");
               Stderr_read_completes (Line "warn: clock skew")]
              Demo.machine in
  listening Demo.machine /\
  end_listen (this m') = false /\
  listen_input_task (this m') = Awaiting_line /\
  listen_error_task (this m') = Awaiting_line /\
  owner m' =
  [Changed;
   Error_reported (JS_exn (GLib_Error "Stream is closed"));
   Error_reported
     (JS_string (error_output_message Demo.gettext "warn: clock skew"))].
Proof.
  split; [exact demo_listening|].
  apply (loops_keep_running_before_teardown Demo.gettext Demo.env Demo.machine
           [Stderr_read_completes End_of_stream;
            Stdout_read_completes End_of_stream;
            Stderr_read_completes (Read_failed "Stream is closed");
            Stderr_read_completes (Line "warn: clock skew")]);
    [exact demo_listening | reflexivity].
Defined.

(** ** The loops after teardown *)

Section AfterTeardown.

Variable gettext : string -> string.
Variable env : Env.

Lemma error_effect_reports (r : read_result) (log : Recorder) :
  length (error_reports (error_effect gettext record_error r log)) <=
  length (error_reports log) + 1.
Proof.
  rewrite error_effect_record, error_reports_app, length_app.
  destruct r as [text| |msg]; cbn; try lia.
  destruct (nonempty text); cbn; lia.
Qed.

Lemma dispatch_reports_stopped (e : event) (m : Machine Recorder) :
  stopped m -> callback_for_errors (this m) = record_error ->
  let m' := snd (dispatch gettext env e m) in
  length (error_reports (owner m')) + reports_left m' <=
  length (error_reports (owner m)) + reports_left m.
Proof.
  intros [Hs Hc] He. cbv zeta. unfold reports_left. destruct e.
  - rewrite dispatch_stdout.
    destruct (listen_input_task (this m)); [|cbn [snd]; lia].
    rewrite listen_input_resume_step. cbn -[error_reports]. rewrite Hc. cbn -[error_reports]. lia.
  - rewrite dispatch_stderr.
    destruct (listen_error_task (this m)) eqn:Ht;
      [|cbn [snd]; rewrite Ht; lia].
    rewrite listen_error_resume_step. cbn -[error_reports]. rewrite Hs, He. cbn -[error_reports].
    pose proof (error_effect_reports r (owner m)). lia.
  - cbn [dispatch]. destruct (enable_frame m) as (E1 & E2 & _).
    rewrite E1, E2. lia.
  - cbn [dispatch]. destruct (disable_frame m) as (E1 & E2 & _).
    rewrite E1, E2. lia.
  - cbn [dispatch]. rewrite finalize_this, finalize_owner. cbn -[error_reports]. lia.
  - rewrite dispatch_child_exits. cbn -[error_reports]. lia.
Qed.

End AfterTeardown.

(** After [finalize] the owner receives at most one more error report,
    whatever completes on the error stream and however many times: the
    error loop handles the one read that was pending and ends. *)
Theorem at_most_one_error_report_after_finalize (gettext : string -> string)
  (env : Env) (m : Machine Recorder) (evs : list event) :
  callback_for_errors (this m) = record_error ->
  length (error_reports (owner (run gettext env evs (snd (finalize env m))))) <=
  length (error_reports (owner m)) + 1.
Proof.
  intros He.
  set (m1 := snd (finalize env m)).
  assert (H1 : (stopped m1 /\ callback_for_errors (this m1) = record_error) /\
               length (error_reports (owner m1)) + reports_left m1 <=
               length (error_reports (owner m)) + 1).
  { split; [split|].
    - apply finalize_stopped.
    - unfold m1. now rewrite finalize_this.
    - unfold m1, reports_left. rewrite finalize_owner.
      destruct (task_done _); lia. }
  pose proof (run_invariant gettext env
                (fun m' => (stopped m' /\
                            callback_for_errors (this m') = record_error) /\
                           length (error_reports (owner m')) + reports_left m' <=
                           length (error_reports (owner m)) + 1)) as Hrun.
  destruct (Hrun) with (evs := evs) (m := m1) as [_ Hle]; [|exact H1|lia].
  intros e m' [[Hs Hc] Hle]. split; [split|].
  - now apply dispatch_stopped.
  - now rewrite dispatch_callback_for_errors.
  - pose proof (dispatch_reports_stopped gettext env e m' Hs Hc) as Hd.
    cbv zeta in Hd. lia.
Qed.

Lemma at_most_one_error_report_after_finalize_witness :
  callback_for_errors (this Demo.machine) = record_error /\
  length (error_reports
            (owner (run Demo.gettext Demo.env
                      [Stderr_read_completes (Line "late");
                       Stderr_read_completes (Line "later");
                       Stderr_read_completes (Read_failed "Stream is closed")]
                      (snd (finalize Demo.env Demo.machine))))) <= 0 + 1.
Proof.
  split; [reflexivity|].
  apply (at_most_one_error_report_after_finalize Demo.gettext Demo.env
           Demo.machine
           [Stderr_read_completes (Line "late");
            Stderr_read_completes (Line "later");
            Stderr_read_completes (Read_failed "Stream is closed")]).
  reflexivity.
Defined.

Section Quiet.

Context {Owner : Type}.
Variable gettext : string -> string.
Variable env : Env.

Lemma dispatch_quiet (e : event) (m : Machine Owner) :
  quiet m ->
  quiet (snd (dispatch gettext env e m)) /\
  owner (snd (dispatch gettext env e m)) = owner m.
Proof.
  intros (Hs & Hi & He). unfold quiet.
  pose proof (dispatch_stopped gettext env e m Hs) as Hs'.
  pose proof (dispatch_this gettext env e m) as Ht. cbv zeta in Ht.
  split; [split; [exact Hs'|]|].
  - destruct Hs as [Hs _].
    destruct e; try destruct Ht as [Ht|Ht]; rewrite Ht; cbn;
      rewrite ?Hs; auto.
  - destruct e.
    + rewrite dispatch_stdout, Hi. reflexivity.
    + rewrite dispatch_stderr, He. reflexivity.
    + apply enable_frame.
    + apply disable_frame.
    + apply finalize_owner.
    + reflexivity.
Qed.

End Quiet.

(** Once [finalize] has run and one more read has completed on each stream,
    both loops have ended and the owner is left alone for good: whatever
    completes or is called afterwards, its state does not change. *)
Theorem owner_left_alone_after_teardown {Owner : Type}
  (gettext : string -> string) (env : Env) (m : Machine Owner)
  (r_out r_err : read_result) (evs : list event) :
  let m1 := snd (finalize env m) in
  let m2 := snd (dispatch gettext env (Stdout_read_completes r_out) m1) in
  let m3 := snd (dispatch gettext env (Stderr_read_completes r_err) m2) in
  listen_input_task (this m3) = Finished /\
  listen_error_task (this m3) = Finished /\
  listen_input_task (this (run gettext env evs m3)) = Finished /\
  listen_error_task (this (run gettext env evs m3)) = Finished /\
  owner (run gettext env evs m3) = owner m3.
Proof.
  cbv zeta.
  set (m1 := snd (finalize env m)).
  assert (Hs1 : stopped m1) by apply finalize_stopped.
  set (m2 := snd (dispatch gettext env (Stdout_read_completes r_out) m1)).
  assert (Hs2 : stopped m2) by now apply dispatch_stopped.
  assert (Hi2 : listen_input_task (this m2) = Finished).
  { unfold m2. rewrite dispatch_stdout.
    destruct (listen_input_task (this m1)) eqn:Ht; [|exact Ht].
    rewrite listen_input_resume_step. destruct Hs1 as [Hs _].
    cbn. now rewrite Hs. }
  set (m3 := snd (dispatch gettext env (Stderr_read_completes r_err) m2)).
  assert (Hq : quiet m3).
  { unfold quiet. split; [now apply dispatch_stopped|].
    unfold m3. rewrite dispatch_stderr.
    destruct (listen_error_task (this m2)) eqn:Ht; [|auto].
    rewrite listen_error_resume_step. destruct Hs2 as [Hs _].
    cbn. rewrite Hs. auto. }
  pose proof (run_invariant gettext env
                (fun m' => quiet m' /\ owner m' = owner m3)) as Hrun.
  destruct (Hrun) with (evs := evs) (m := m3) as [(_ & Hi & He) Ho];
    [|split; [exact Hq | reflexivity]|].
  - intros e m' [Hq' Ho'].
    destruct (dispatch_quiet gettext env e m' Hq') as [Hq'' Ho''].
    split; [exact Hq''|congruence].
  - destruct Hq as (_ & Hi3 & He3). auto.
Qed.

(** ** What a run keeps *)

Section Kept.

Context {Owner : Type}.
Variable gettext : string -> string.
Variable env : Env.

Lemma dispatch_handles (e : event) (m : Machine Owner) :
  let l := this m in
  let l' := this (snd (dispatch gettext env e m)) in
  subprocess l' = subprocess l /\
  input l' = input l /\
  input_error l' = input_error l /\
  output l' = output l.
Proof.
  pose proof (dispatch_this gettext env e m) as H. cbv zeta in *.
  destruct e; try destruct H as [H|H]; rewrite H; repeat split.
Qed.

Lemma dispatch_never_restarts (e : event) (m : Machine Owner) :
  let l := this m in
  let l' := this (snd (dispatch gettext env e m)) in
  implb (end_listen l) (end_listen l') = true /\
  implb (task_done (listen_input_task l)) (task_done (listen_input_task l')) = true /\
  implb (task_done (listen_error_task l)) (task_done (listen_error_task l')) = true.
Proof.
  cbv zeta. destruct e.
  - rewrite dispatch_stdout. destruct (listen_input_task (this m)) eqn:Ht.
    + rewrite listen_input_resume_step. cbn.
      destruct (end_listen (this m)), (listen_error_task (this m)); repeat split.
    + cbn [snd]. rewrite Ht.
      destruct (end_listen (this m)), (listen_error_task (this m)); repeat split.
  - rewrite dispatch_stderr. destruct (listen_error_task (this m)) eqn:Ht.
    + rewrite listen_error_resume_step. cbn.
      destruct (end_listen (this m)), (listen_input_task (this m)); repeat split.
    + cbn [snd]. rewrite Ht.
      destruct (end_listen (this m)), (listen_input_task (this m)); repeat split.
  - cbn [dispatch]. destruct (enable_frame m) as (-> & _ & _).
    destruct (end_listen (this m)), (listen_input_task (this m)),
      (listen_error_task (this m)); repeat split.
  - cbn [dispatch]. destruct (disable_frame m) as (-> & _ & _).
    destruct (end_listen (this m)), (listen_input_task (this m)),
      (listen_error_task (this m)); repeat split.
  - cbn [dispatch]. rewrite finalize_this. cbn.
    destruct (end_listen (this m)), (listen_input_task (this m)),
      (listen_error_task (this m)); repeat split.
  - rewrite dispatch_child_exits. cbn.
    destruct (end_listen (this m)), (listen_input_task (this m)),
      (listen_error_task (this m)); repeat split.
Qed.

Lemma implb_trans (a b c : bool) :
  implb a b = true -> implb b c = true -> implb a c = true.
Proof. destruct a, b, c; auto. Qed.

End Kept.

(** Whatever the events, the listener keeps the handles and the error
    callback it was built with: the subprocess, the two input streams, the
    output stream and [callback_for_errors] are never reassigned. *)
Theorem handles_and_error_callback_are_kept {Owner : Type}
  (gettext : string -> string) (env : Env) (evs : list event)
  (m : Machine Owner) :
  let l := this m in
  let l' := this (run gettext env evs m) in
  subprocess l' = subprocess l /\
  input l' = input l /\
  input_error l' = input_error l /\
  output l' = output l /\
  callback_for_errors l' = callback_for_errors l.
Proof.
  cbv zeta.
  apply (run_invariant gettext env
           (fun m' => subprocess (this m') = subprocess (this m) /\
                      input (this m') = input (this m) /\
                      input_error (this m') = input_error (this m) /\
                      output (this m') = output (this m) /\
                      callback_for_errors (this m') = callback_for_errors (this m)));
    [|repeat split].
  intros e m' (H1 & H2 & H3 & H4 & H5).
  destruct (dispatch_handles gettext env e m') as (E1 & E2 & E3 & E4).
  rewrite dispatch_callback_for_errors. repeat split; congruence.
Qed.

(** Nothing is ever undone: whatever the events, a stop flag that is set
    stays set, and a loop that has ended stays ended (no read is issued
    again on its stream). *)
Theorem a_run_never_restarts_a_loop {Owner : Type}
  (gettext : string -> string) (env : Env) (evs : list event)
  (m : Machine Owner) :
  let l := this m in
  let l' := this (run gettext env evs m) in
  implb (end_listen l) (end_listen l') = true /\
  implb (task_done (listen_input_task l)) (task_done (listen_input_task l')) = true /\
  implb (task_done (listen_error_task l)) (task_done (listen_error_task l')) = true.
Proof.
  cbv zeta.
  apply (run_invariant gettext env
           (fun m' =>
              implb (end_listen (this m)) (end_listen (this m')) = true /\
              implb (task_done (listen_input_task (this m)))
                    (task_done (listen_input_task (this m'))) = true /\
              implb (task_done (listen_error_task (this m)))
                    (task_done (listen_error_task (this m'))) = true)).
  - intros e m' (H1 & H2 & H3).
    destruct (dispatch_never_restarts gettext env e m') as (E1 & E2 & E3).
    repeat split; eapply implb_trans; eassumption.
  - repeat split; apply implb_same.
Qed.

(** ** The message of an error report *)

Lemma append_inv_head (a x y : string) : a ++ x = a ++ y -> x = y.
Proof.
  induction a as [|ch a IH]; cbn; [auto|].
  intros H. injection H as H. auto.
Qed.

(** The message built around a line of the error stream determines the
    line: two reports with the same message come from the same line, so the
    owner can tell the lines apart. *)
Theorem error_report_determines_line (gettext : string -> string)
  (line1 line2 : string) :
  error_output_message gettext line1 = error_output_message gettext line2 ->
  line1 = line2.
Proof.
  unfold error_output_message. intros H.
  repeat apply append_inv_head in H. exact H.
Qed.

Lemma error_report_determines_line_witness :
  error_output_message Demo.gettext "warn: clock skew" =
  error_output_message Demo.gettext "warn: clock skew" /\
  "warn: clock skew" = "warn: clock skew".
Proof.
  split; [reflexivity|].
  apply (error_report_determines_line Demo.gettext); reflexivity.
Defined.
